(** * The obsidian-mcp protocol server: a shallow embedding and its properties

    The development follows the three TypeScript units of the repository:
    the [ObsidianServer] class (tool registry, admission control, request
    dispatch, HTTP request listener), and the [main] start-up routine (vault
    path validation, vault cap, overlap check, vault naming).

    The modules that these units import from the repository without their
    source being part of it here ([./utils/security.js], [./utils/path.js])
    and the Node.js runtime ([path], [os], [fs], [URL]) enter as interfaces:
    type classes whose fields are the imported functions. *)

From Stdlib Require Import Ascii.
From stdpp Require Import base strings list gmap sets pretty.

Set Warnings "-register-all,-clear-no-such-hyp".
Local Open Scope stdpp_scope.

(** ** JavaScript values, thrown values and completions *)

Module Js.

(** The line feed of a template literal or of ["\n"]. *)
Definition LF : string := String (Ascii.ascii_of_nat 10) EmptyString.

(** [Array.prototype.join]. *)
Fixpoint join (sep : string) (parts : list string) : string :=
  match parts with
  | [] => ""
  | [s] => s
  | s :: rest => s +:+ sep +:+ join sep rest
  end.

(** Values carried by requests and results ([any] in the source). *)
Inductive Value :=
| Undefined
| Null
| Bool (b : bool)
| Num (z : Z)
| Str (s : string)
| Arr (items : list Value)
| Obj (props : list (string * Value)).

(** Property read [v.key]; a property that is absent reads [undefined]. *)
Definition prop (key : string) (v : Value) : Value :=
  match v with
  | Obj props =>
      match list_find (λ kv, kv.1 = key) props with
      | Some (_, (_, x)) => x
      | None => Undefined
      end
  | _ => Undefined
  end.

(** [!v || typeof v !== 'object'] is false exactly on arrays and objects
    ([null] has type ['object'] but is falsy). *)
Definition isObject (v : Value) : bool :=
  match v with
  | Arr _ | Obj _ => true
  | _ => false
  end.

(** [!v || typeof v !== 'string'] is false exactly on non-empty strings. *)
Definition nonEmptyString (v : Value) : option string :=
  match v with
  | Str s => if decide (s = "") then None else Some s
  | _ => None
  end.

Inductive ErrorCode := InvalidRequest | InvalidParams | MethodNotFound | InternalError.

(** One element of a Zod issue path: an object key or an array index. *)
Inductive PathSeg := Key (k : string) | Index (i : N).

Record ZodIssue := { path : list PathSeg; message : string }.

(** What a [throw] can carry, as far as the [instanceof] tests of the
    source tell values apart. [OtherValue s] is a thrown value that is no
    [Error]; [s] is what [String(value)] returns for it. *)
Inductive Thrown :=
| ZodError (errors : list ZodIssue)
| McpError (code : ErrorCode) (msg : string)
| OtherError (msg : string)
| OtherValue (str : string).

Inductive Completion (A : Type) :=
| Return (a : A)
| Throw (e : Thrown).
Global Arguments Return {A} a.
Global Arguments Throw {A} e.

End Js.
Import Js.

(** ** [Map<string, V>]: keys in insertion order *)

Module JsMap.

Section Ops.
Context {V : Type}.

(** [Map.prototype.set]: an existing key keeps its position and takes
    the new value, a new key goes to the end. *)
Fixpoint set (k : string) (v : V) (m : list (string * V)) : list (string * V) :=
  match m with
  | [] => [(k, v)]
  | (k', v') :: m' =>
      if decide (k' = k) then (k, v) :: m' else (k', v') :: set k v m'
  end.

Fixpoint get (k : string) (m : list (string * V)) : option V :=
  match m with
  | [] => None
  | (k', v') :: m' => if decide (k' = k) then Some v' else get k m'
  end.

Definition keys (m : list (string * V)) : list string := m.*1.
Definition values (m : list (string * V)) : list V := m.*2.

End Ops.

End JsMap.

(** ** Effects: server state, a trace of calls to collaborators, exceptions *)

Inductive Event :=
| ConsoleError (text : string)        (* console.error(text, ...) *)
| ValidateMessageSize                 (* validateMessageSize(request) *)
| UpdateActivity                      (* connectionMonitor.updateActivity() *)
| CheckLimit (key : string)           (* rateLimiter.checkLimit(key) *)
| SchemaParse (tool : string)         (* tool.inputSchema.parse(args) *)
| HandlerCall (tool : string).        (* tool.handler(validatedArgs) *)

(** The admission steps among the events of a trace. *)
Definition isAdmissionStep (ev : Event) : bool :=
  match ev with
  | ValidateMessageSize | UpdateActivity | CheckLimit _ => true
  | _ => false
  end.

Definition admissionSteps (tr : list Event) : list Event :=
  filter (λ ev, isAdmissionStep ev = true) tr.

Module Eff.

(** A computation reads and writes a state, appends to the trace, and
    completes normally or abruptly; mutations made before a [throw] stay. *)
Definition M (St A : Type) : Type := St → Completion A * St * list Event.

Section Ops.
Context {St : Type}.

Definition ret {A} (a : A) : M St A := λ s, (Return a, s, []).

Definition throw {A} (e : Thrown) : M St A := λ s, (Throw e, s, []).

Definition bind {A B} (m : M St A) (k : A → M St B) : M St B := λ s,
  match m s with
  | (Return a, s1, t1) => let '(r, s2, t2) := k a s1 in (r, s2, t1 ++ t2)
  | (Throw e, s1, t1) => (Throw e, s1, t1)
  end.

(** [try { m } catch (error) { h error }]. *)
Definition try_catch {A} (m : M St A) (h : Thrown → M St A) : M St A := λ s,
  match m s with
  | (Return a, s1, t1) => (Return a, s1, t1)
  | (Throw e, s1, t1) => let '(r, s2, t2) := h e s1 in (r, s2, t1 ++ t2)
  end.

Definition emit (ev : Event) : M St unit := λ s, (Return tt, s, [ev]).
Definition gets {A} (f : St → A) : M St A := λ s, (Return (f s), s, []).
Definition modify (f : St → St) : M St unit := λ s, (Return tt, f s, []).

Definition result {A} (x : Completion A * St * list Event) : Completion A := x.1.1.
Definition final {A} (x : Completion A * St * list Event) : St := x.1.2.
Definition trace {A} (x : Completion A * St * list Event) : list Event := x.2.
End Ops.

Module Notations.
Notation "'do' x <- m ; k" := (bind m (λ x, k))
  (at level 10, x name, m at level 100, k at level 200, only parsing).
Notation "'exec' m ; k" := (bind m (λ _, k))
  (at level 10, m at level 100, k at level 200, only parsing).
End Notations.

End Eff.
Import Eff Eff.Notations.

(** ** The interface of [./utils/security.js]

    [RateLimiter], [ConnectionMonitor] and [validateMessageSize] are imported
    by the server. [validateMessageSize] either returns ([None]) or throws. [updateActivity] and [checkLimit] read the
    wall clock, which the model passes in as [now]. *)

Record Request := { method : string; params : Value }.

Class Security := {
  RateLimiter : Type;
  ConnectionMonitor : Type;
  validateMessageSize : Request → option Thrown;
  updateActivity : Z → ConnectionMonitor → ConnectionMonitor;
  checkLimit : string → Z → RateLimiter → bool * RateLimiter;
}.

(** ** The server class *)

Module Server.

(** [tool.inputSchema]: the dispatcher uses [parse] and surfaces
    [jsonSchema]. *)
Record SchemaHandler := { parse : Value → Completion Value; jsonSchema : Value }.

(** What a handler resolves to: [{content}]. *)
Module ToolResult.
Record t := { content : Value }.
End ToolResult.

(** [Tool<T>]: a handler is an asynchronous function of the validated
    arguments; it acts on the collaborators outside the server, whose
    state is a [World]. *)
Record Tool (World : Type) := {
  name : string;
  description : string;
  inputSchema : SchemaHandler;
  handler : Value → World → Completion ToolResult.t * World;
}.
Global Arguments name {World} _.
Global Arguments description {World} _.
Global Arguments inputSchema {World} _.
Global Arguments handler {World} _ _ _.

(** One element of the [tools] array of a list-tools result. *)
Module Listed.
Record t := { name : string; description : string; inputSchema : Value }.
End Listed.

(** The result of a call: [timestamp] is the clock reading that the source
    renders with [toISOString]. *)
Record Meta := { toolName : string; timestamp : Z; success : bool }.
Record CallToolResult := { _meta : Meta; content : Value }.

Section WithSecurity.
Context `{Sec : Security} {World : Type}.

(** The fields of [ObsidianServer] that the handlers use. *)
Record ObsidianServer := {
  tools : list (string * Tool World);
  vaults : list (string * string);
  rateLimiter : RateLimiter;
  connectionMonitor : ConnectionMonitor;
}.

Record State := { this : ObsidianServer; world : World }.

Definition set_tools (f : list (string * Tool World) → list (string * Tool World))
    (st : State) : State :=
  {| this := {| tools := f (tools (this st)); vaults := vaults (this st);
                rateLimiter := rateLimiter (this st);
                connectionMonitor := connectionMonitor (this st) |};
     world := world st |}.

Definition set_connectionMonitor (f : ConnectionMonitor → ConnectionMonitor)
    (st : State) : State :=
  {| this := {| tools := tools (this st); vaults := vaults (this st);
                rateLimiter := rateLimiter (this st);
                connectionMonitor := f (connectionMonitor (this st)) |};
     world := world st |}.

Definition set_rateLimiter (rl : RateLimiter) (st : State) : State :=
  {| this := {| tools := tools (this st); vaults := vaults (this st);
                rateLimiter := rl;
                connectionMonitor := connectionMonitor (this st) |};
     world := world st |}.

Definition console_error (text : string) : M State unit := emit (ConsoleError text).

(** [registerTool(tool)]: two log lines around [this.tools.set]. *)
Definition registerTool (tool : Tool World) : M State unit :=
  exec console_error ("Registering tool: " +:+ name tool);
  exec modify (set_tools (JsMap.set (name tool) tool));
  do ts <- gets (λ st, tools (this st));
  console_error ("Current tools: " +:+ join ", " (JsMap.keys ts)).

(** The three calls of [validateRequest], each with its trace event. *)
Definition call_validateMessageSize (request : Request) : M State unit :=
  exec emit ValidateMessageSize;
  match validateMessageSize request with
  | None => ret tt
  | Some e => throw e
  end.

Definition call_updateActivity (now : Z) : M State unit :=
  exec emit UpdateActivity;
  modify (set_connectionMonitor (updateActivity now)).

Definition call_checkLimit (key : string) (now : Z) : M State bool :=
  exec emit (CheckLimit key);
  do rl <- gets (λ st, rateLimiter (this st));
  exec modify (set_rateLimiter (checkLimit key now rl).2);
  ret (checkLimit key now rl).1.

(** [validateRequest(request)]; the [catch] logs and rethrows. *)
Definition validateRequest (now : Z) (request : Request) : M State unit :=
  try_catch
    (exec call_validateMessageSize request;
     exec call_updateActivity now;
     do admitted <- call_checkLimit (method request) now;
     if admitted : bool then ret tt
     else throw (McpError InvalidRequest "Rate limit exceeded"))
    (λ error,
       exec console_error "Request validation failed:";
       throw error).

(** The invariant of [tools]: every entry sits under the name of its tool,
    and no key occurs twice. *)
Definition wellKeyed (ts : list (string * Tool World)) : Prop :=
  NoDup (JsMap.keys ts) ∧ Forall (λ kt, name kt.2 = kt.1) ts.

(** [Array.from(this.tools.values()).map(tool => ({...}))]. *)
Definition listed (ts : list (string * Tool World)) : list Listed.t :=
  (λ tool, {| Listed.name := name tool;
              Listed.description := description tool;
              Listed.inputSchema := jsonSchema (inputSchema tool) |})
    <$> JsMap.values ts.

(** The state after the activity update and the rate check. *)
Definition admittedState (now : Z) (request : Request) (st : State) : State :=
  set_rateLimiter (checkLimit (method request) now (rateLimiter (this st))).2
    (set_connectionMonitor (updateActivity now) st).

(** The handler of [ListToolsRequestSchema]. *)
Definition listToolsHandler (now : Z) (request : Request) : M State (list Listed.t) :=
  exec validateRequest now request;
  do ts <- gets (λ st, tools (this st));
  ret (listed ts).

(** The fields as the constructor leaves them: [tools] is a new [Map]. *)
Definition constructed (vs : list (string * string)) (rl : RateLimiter)
    (cm : ConnectionMonitor) : ObsidianServer :=
  {| tools := []; vaults := vs; rateLimiter := rl; connectionMonitor := cm |}.

(** The loop of [main] over the tools it builds: a [throw] of
    [registerTool] is logged and thrown again. *)
Fixpoint registerAll (ts : list (Tool World)) : M State unit :=
  match ts with
  | [] => ret tt
  | tool :: rest =>
      exec try_catch (registerTool tool)
            (λ error,
               exec console_error ("Error registering tool " +:+ name tool +:+ ":");
               throw error);
      registerAll rest
  end.

(** [e.path.join(".")]: numbers print in decimal. *)
Definition segString (seg : PathSeg) : string :=
  match seg with
  | Key k => k
  | Index i => pretty i
  end.

(** The line the [catch] block makes of one issue of a [ZodError]. *)
Definition formatIssue (e : ZodIssue) : string :=
  let path := join "." (segString <$> Js.path e) in
  let message := Js.message e in
  (if decide (path = "") then "" else path +:+ ": ") +:+ message.

Definition formattedErrors (errors : list ZodIssue) : string :=
  join LF (formatIssue <$> errors).

(** [part] is a piece of [whole]. *)
Definition occursIn (part whole : string) : Prop :=
  ∃ before after, whole = before +:+ part +:+ after.

(** The [catch] block of the call-tool handler. *)
Definition callToolCatch (error : Thrown) : M State CallToolResult :=
  match error with
  | ZodError errors =>
      throw (McpError InvalidParams ("Invalid arguments:" +:+ LF +:+ formattedErrors errors))
  | McpError _ _ => throw error
  | OtherError msg => throw (McpError InternalError ("Tool execution failed: " +:+ msg))
  | OtherValue str => throw (McpError InternalError ("Tool execution failed: " +:+ str))
  end.

Definition call_parse (tool : Tool World) (args : Value) : M State Value :=
  exec emit (SchemaParse (name tool));
  match parse (inputSchema tool) args with
  | Return v => ret v
  | Throw e => throw e
  end.

Definition call_handler (tool : Tool World) (validatedArgs : Value) : M State ToolResult.t :=
  exec emit (HandlerCall (name tool));
  λ st, let '(r, w) := handler tool validatedArgs (world st) in
        (r, {| this := this st; world := w |}, []).

(** The handler of [CallToolRequestSchema]. *)
Definition callToolHandler (now : Z) (request : Request) : M State CallToolResult :=
  exec validateRequest now request;
  let params := params request in
  if negb (isObject params) then
    throw (McpError InvalidParams "Invalid request parameters")
  else
    let args := prop "arguments" params in
    match nonEmptyString (prop "name" params) with
    | None => throw (McpError InvalidParams "Missing or invalid tool name")
    | Some name =>
        do ts <- gets (λ st, tools (this st));
        match JsMap.get name ts with
        | None => throw (McpError MethodNotFound ("Unknown tool: " +:+ name))
        | Some tool =>
            try_catch
              (do validatedArgs <- call_parse tool args;
               do result <- call_handler tool validatedArgs;
               ret {| _meta := {| toolName := name; timestamp := now; success := true |};
                      content := ToolResult.content result |})
              callToolCatch
        end
    end.

(** The trace of a call up to the tool's schema. *)
Definition upToParse (request : Request) (tool : Tool World) : list Event :=
  [ValidateMessageSize; UpdateActivity; CheckLimit (method request); SchemaParse (name tool)].

(** The request passes admission and names a registered tool: the
    call-tool handler gets as far as the tool's schema. *)
Definition dispatched (now : Z) (request : Request) (st : State)
    (name : string) (tool : Tool World) : Prop :=
  validateMessageSize request = None ∧
  (checkLimit (method request) now (rateLimiter (this st))).1 = true ∧
  isObject (params request) = true ∧
  nonEmptyString (prop "name" (params request)) = Some name ∧
  JsMap.get name (tools (this st)) = Some tool.

End WithSecurity.
Global Arguments ObsidianServer {Sec} World.
Global Arguments State {Sec} World.

End Server.

(** ** The HTTP request listener of [start]

    [http.createServer(async (req, res) => ...)]: what the listener does
    with one request. The [URL] constructor belongs to the runtime and is an
    interface; [new URL(input, base)] throws on input it cannot parse. *)

Module Http.

Class UrlParser := { URL_pathname : string → string → option string }.

(** [config] of [start] for the HTTP transport, as far as the listener reads it. *)
Record Config := { path : string }.

(** [req]: [req.url], [req.method] and [req.headers.host] may be undefined. *)
Record IncomingMessage := {
  url : option string;
  method : option string;
  headers_host : option string;
}.

Inductive Action :=
| NotFound                  (* res.writeHead(404).end("Not Found") *)
| Preflight (allow : string) (* res.writeHead(204, { Allow: allow }).end() *)
| Delegate                  (* await transport.handleRequest(req, res), 500 when it throws *)
| Rejects.                  (* the URL constructor threw: the listener's promise rejects *)

Section Listener.
Context `{Url : UrlParser}.

(** [req.url ? new URL(req.url, `http://${req.headers.host ?? "localhost"}`) : null],
    read through [.pathname]; the outer [option] is the constructor's throw. *)
Definition requestUrl (req : IncomingMessage) : option (option string) :=
  match url req with
  | None => Some None
  | Some u =>
      if decide (u = "") then Some None
      else Some <$> URL_pathname u ("http://" +:+ default "localhost" (headers_host req))
  end.

Definition requestListener (config : Config) (req : IncomingMessage) : Action :=
  match requestUrl req with
  | None => Rejects
  | Some None => NotFound
  | Some (Some pathname) =>
      if decide (pathname ≠ path config) then NotFound
      else if decide (method req = Some "OPTIONS") then Preflight "GET,POST,DELETE,OPTIONS"
      else Delegate
  end.

End Listener.

(** The request targets used in the examples are in origin form, made of
    unreserved characters and [/], with an optional query or fragment; on
    these the pathname of the parsed URL is the target up to the first [?]
    or [#]. *)
Fixpoint originFormPathname (target : string) : string :=
  match target with
  | EmptyString => ""
  | String c rest =>
      if decide (c = "?"%char ∨ c = "#"%char) then ""
      else String c (originFormPathname rest)
  end.

Definition originForm : UrlParser :=
  {| URL_pathname := λ input _, Some (originFormPathname input) |}.

(** The route as the specification words it: the configured path followed
    by [n] further copies of its leading segment. *)
Fixpoint segmentBody (s : string) : string :=
  match s with
  | EmptyString => ""
  | String c rest => if decide (c = "/"%char) then "" else String c (segmentBody rest)
  end.

Definition leadingSegment (p : string) : string :=
  match p with
  | String "/"%char rest => String "/"%char (segmentBody rest)
  | _ => segmentBody p
  end.

Fixpoint copies (n : nat) (seg : string) : string :=
  match n with
  | O => ""
  | S n' => seg +:+ copies n' seg
  end.

Definition repeatedRoute (configured : string) (pathname : string) : Prop :=
  ∃ n : nat, pathname = configured +:+ copies n (leadingSegment configured).

End Http.

(** ** The start-up routine [main]

    The model starts where the option loop of [main] ends, with the vault
    path arguments [vaultArgs]. *)

Module Cli.

(** *** Node's [os], [path] and [fs], as far as [main] calls them *)

Record FsError := { code : string; text : string }.

Inductive Stats :=
| StatOk (isDirectory : bool)
| StatFails (e : FsError).

Inductive AccessMode := R_OK | R_OK_W_OK.

Class Node := {
  os_homedir : string;
  path_join : string → string → string;
  path_normalize : string → string;
  path_resolve : string → string;
  path_isAbsolute : string → bool;
  path_basename : string → string;
  fs_stat : string → Stats;
  fs_access : string → AccessMode → option FsError;
}.

(** *** The imports from [./utils/path.js]

    The three path checks return a reason or [null]; [checkPathOverlap]
    returns or throws. *)

Class PathUtils := {
  checkPathCharacters : string → option string;
  checkLocalPath : string → option string;
  checkSuspiciousPath : string → option string;
  sanitizeVaultName : string → string;
  checkPathOverlap : list string → option Thrown;
}.

Record VaultConfig := { name : string; path : string }.

Definition MAX_VAULTS : nat := 10.

(** [s.slice(1)]. *)
Definition slice1 (s : string) : string :=
  match s with
  | EmptyString => ""
  | String _ rest => rest
  end.

(** [s.replace(/[\/\\]+$/, '')]: the trailing run of slashes and backslashes goes. *)
Fixpoint dropSeparators (reversed : string) : string :=
  match reversed with
  | String c rest =>
      if decide (c = "/"%char ∨ c = "\"%char) then dropSeparators rest else reversed
  | EmptyString => ""
  end.

Definition stripTrailingSeparators (s : string) : string :=
  String.rev (dropSeparators (String.rev s)).

(** *** Validation of one vault path

    Each exit of the callback of [vaultArgs.map] is one constructor; every
    one of them writes a JSON-RPC error and calls [process.exit(1)]. *)

Inductive Rejection :=
| NotAbsolute                     (* "Vault path must be absolute" *)
| NotLocal (issue : string)       (* "Invalid vault path (issue)", local filesystem *)
| Suspicious (reason : string)    (* "Invalid vault path (reason)", security *)
| NotADirectory                   (* "Vault path must be a directory" *)
| DoesNotExist                    (* ENOENT: "Vault directory does not exist" *)
| NoPermission                    (* EACCES: "No permission to access vault directory" *)
| AccessError (text : string)     (* "Error accessing vault path" *)
| ConfigNotADirectory             (* "The .obsidian folder exists but is not a directory" *)
| NotAVault                       (* ENOENT: "Not a valid Obsidian vault" *)
| ConfigError (text : string).    (* "Error checking Obsidian configuration", InternalError *)

Definition rejectionCode (r : Rejection) : ErrorCode :=
  match r with
  | ConfigError _ => InternalError
  | _ => InvalidRequest
  end.

(** The calls a callback makes to its collaborators. *)
Inductive Call :=
| CheckPathCharacters (p : string)
| CheckSuspiciousPath (p : string)
| CheckLocalPath (p : string)
| Stat (p : string)
| Access (p : string) (mode : AccessMode).

(** A callback emits calls in order and ends in a rejection or a value. *)
Definition V (A : Type) : Type := list Call * (Rejection + A).

Definition vret {A} (a : A) : V A := ([], inr a).
Definition reject {A} (r : Rejection) : V A := ([], inl r).
Definition called {A} (c : Call) (answer : A) : V A := ([c], inr answer).
Definition vbind {A B} (m : V A) (k : A → V B) : V B :=
  match m with
  | (cs, inl r) => (cs, inl r)
  | (cs, inr a) => let '(cs', x) := k a in (cs ++ cs', x)
  end.

Notation "'await' x <- m ; k" := (vbind m (λ x, k))
  (at level 10, x name, m at level 100, k at level 200, only parsing).

Section Main.
Context `{Host : Node} `{Utils : PathUtils}.

(** The first [catch] of the callback: a failure of [fs.stat] or
    [fs.access] on the vault directory. *)
Definition accessRejection (e : FsError) : Rejection :=
  if decide (code e = "ENOENT") then DoesNotExist
  else if decide (code e = "EACCES") then NoPermission
  else AccessError (text e).

(** The inner [catch]: a failure on [.obsidian] or [.obsidian/app.json]. *)
Definition configRejection (e : FsError) : Rejection :=
  if decide (code e = "ENOENT") then NotAVault else ConfigError (text e).

Definition absolutePathOf (vaultPath : string) : string :=
  let expandedPath :=
    if String.prefix "~" vaultPath then path_join os_homedir (slice1 vaultPath)
    else vaultPath in
  let normalizedPath := stripTrailingSeparators (path_normalize expandedPath) in
  path_resolve normalizedPath.

(** The callback of [vaultArgs.map]. [Promise.all] starts both path checks,
    [checkSuspiciousPath] first, and waits for both answers. *)
Definition validateVaultPath (vaultPath : string) : V string :=
  let absolutePath := absolutePathOf vaultPath in
  if negb (path_isAbsolute absolutePath) then reject NotAbsolute
  else
    await suspiciousReason <-
      called (CheckSuspiciousPath absolutePath) (checkSuspiciousPath absolutePath);
    await localPathIssue <-
      called (CheckLocalPath absolutePath) (checkLocalPath absolutePath);
    match localPathIssue, suspiciousReason with
    | Some issue, _ => reject (NotLocal issue)
    | None, Some reason => reject (Suspicious reason)
    | None, None =>
        await stats <- called (Stat absolutePath) (fs_stat absolutePath);
        match stats with
        | StatFails e => reject (accessRejection e)
        | StatOk false => reject NotADirectory
        | StatOk true =>
            await denied <-
              called (Access absolutePath R_OK_W_OK) (fs_access absolutePath R_OK_W_OK);
            match denied with
            | Some e => reject (accessRejection e)
            | None =>
                let obsidianConfigPath := path_join absolutePath ".obsidian" in
                let obsidianAppConfigPath := path_join obsidianConfigPath "app.json" in
                await configStats <-
                  called (Stat obsidianConfigPath) (fs_stat obsidianConfigPath);
                match configStats with
                | StatFails e => reject (configRejection e)
                | StatOk false => reject ConfigNotADirectory
                | StatOk true =>
                    await unreadable <-
                      called (Access obsidianAppConfigPath R_OK)
                        (fs_access obsidianAppConfigPath R_OK);
                    match unreadable with
                    | Some e => reject (configRejection e)
                    | None => vret absolutePath
                    end
                end
            end
        end
    end.

(** The callback ran to its end and returned the absolute path. *)
Definition passes (vaultPath : string) : bool :=
  match (validateVaultPath vaultPath).2 with
  | inr _ => true
  | inl _ => false
  end.

(** *** Unique vault names *)

(** [`${vaultName}-${counter}`]. *)
Definition numbered (vaultName : string) (counter : N) : string :=
  vaultName +:+ "-" +:+ pretty counter.

(** The [while] loop of the [forEach]: [uniqueName] is tried, then
    [`${vault.name}-${counter}`] with a growing [counter]. [fuel] bounds the
    number of times the body runs. *)
Fixpoint whileUsed (fuel : nat) (usedNames : gset string)
    (vaultName uniqueName : string) (counter : N) : option string :=
  if decide (uniqueName ∈ usedNames) then
    match fuel with
    | O => None
    | S fuel' =>
        whileUsed fuel' usedNames vaultName (numbered vaultName counter) (counter + 1)%N
    end
  else Some uniqueName.

(** One turn of [vaults.forEach]: the state is [uniqueVaults] and
    [usedNames]. The body of the loop runs at most once per used name. *)
Definition forEachVault (state : option (list VaultConfig * gset string))
    (vault : VaultConfig) : option (list VaultConfig * gset string) :=
  '(uniqueVaults, usedNames) ← state;
  uniqueName ← whileUsed (size usedNames) usedNames (name vault) (name vault) 1%N;
  Some (uniqueVaults ++ [{| name := uniqueName; path := path vault |}],
        {[ uniqueName ]} ∪ usedNames).

Definition uniqueVaultsOf (vaults : list VaultConfig) : option (list VaultConfig) :=
  fst <$> foldl forEachVault (Some ([], ∅)) vaults.

(** How the name given to a vault relates to the names given before it:
    the vault's own name when that is free, and otherwise the first of
    [name-1], [name-2], ... that is free. *)
Definition assigned (earlier : list string) (vaultName uniqueName : string) : Prop :=
  if decide (vaultName ∈ earlier) then
    ∃ k : N, (1 ≤ k)%N ∧ uniqueName = numbered vaultName k ∧ (uniqueName ∉ earlier) ∧
             ∀ j : N, (1 ≤ j < k)%N → numbered vaultName j ∈ earlier
  else uniqueName = vaultName.

(** *** [main] *)

Inductive Outcome :=
| NoVaultPaths                                         (* exit 1, no path given *)
| PathsRejected (rejections : list (string * Rejection))
    (* exit 1 from the callback of one of these paths, whichever settles first *)
| TooManyVaults (given : nat)                          (* exit 1, more than MAX_VAULTS *)
| NoValidPaths                                         (* exit 1, normalizedPaths is empty *)
| OverlappingVaults (error : Thrown)                   (* exit 1, checkPathOverlap threw *)
| NamingDiverges                                       (* the naming loop does not end *)
| StartServer (uniqueVaults : list VaultConfig).
    (* new ObsidianServer(uniqueVaults); uniqueVaults is as long as normalizedPaths,
       so the test uniqueVaults.length === 0 before it is never true *)

Definition exits (o : Outcome) : bool :=
  match o with
  | StartServer _ | NamingDiverges => false
  | _ => true
  end.

(** What a run of [main] did: per vault argument the calls of its callback
    (when a path is rejected the process ends, and the calls of the other
    callbacks that were still to come are not made), whether
    [checkPathOverlap] was reached, and how the run ended. *)
Record Run := {
  validation : list (list Call);
  overlapChecked : bool;
  outcome : Outcome;
}.

Definition rejectionsOf (vaultArgs : list string) (results : list (V string))
    : list (string * Rejection) :=
  omap (λ pr, match pr.2.2 with inl r => Some (pr.1, r) | inr _ => None end)
       (zip vaultArgs results).

Definition acceptedOf (results : list (V string)) : list string :=
  omap (λ res, match res.2 with inl _ => None | inr p => Some p end) results.

Definition main (vaultArgs : list string) : Run :=
  if decide (length vaultArgs = 0) then
    {| validation := []; overlapChecked := false; outcome := NoVaultPaths |}
  else
    let results := validateVaultPath <$> vaultArgs in
    let calls := fst <$> results in
    match rejectionsOf vaultArgs results with
    | (_ :: _) as rejections =>
        {| validation := calls; overlapChecked := false;
           outcome := PathsRejected rejections |}
    | [] =>
        let normalizedPaths := acceptedOf results in
        if decide (MAX_VAULTS < length vaultArgs) then
          {| validation := calls; overlapChecked := false;
             outcome := TooManyVaults (length vaultArgs) |}
        else if decide (length normalizedPaths = 0) then
          {| validation := calls; overlapChecked := false; outcome := NoValidPaths |}
        else
          match checkPathOverlap normalizedPaths with
          | Some error =>
              {| validation := calls; overlapChecked := true;
                 outcome := OverlappingVaults error |}
          | None =>
              let vaults :=
                (λ vaultPath,
                   {| name := sanitizeVaultName (path_basename vaultPath);
                      path := vaultPath |}) <$> normalizedPaths in
              {| validation := calls; overlapChecked := true;
                 outcome := match uniqueVaultsOf vaults with
                            | Some uniqueVaults => StartServer uniqueVaults
                            | None => NamingDiverges
                            end |}
          end
    end.

End Main.

End Cli.

(** ** The overlap check of [./utils/path.js] *)

Module Overlap.

(** Modelled from the spec: the source of [checkPathOverlap] is missing;
    "one is a path-prefix of another (directory containment)". [contains]
    holds of a directory and a path inside it. *)
Definition contains (ancestor p : string) : bool :=
  String.prefix (ancestor +:+ "/") p.

(** Modelled from the spec: the source of [checkPathOverlap] is missing;
    "any two resolved paths are equal or one is a path-prefix of another
    (directory containment in either direction)". *)
Definition overlap (a b : string) : bool :=
  bool_decide (a = b) || contains a b || contains b a.

(** Modelled from the spec: the source of [checkPathOverlap] is missing;
    the search through "the full candidate set" for the first pair of
    overlapping paths, the earlier path first. *)
Fixpoint firstOverlap (paths : list string) : option (string * string) :=
  match paths with
  | [] => None
  | p :: rest =>
      match list_find (λ q, overlap p q = true) rest with
      | Some (_, q) => Some (p, q)
      | None => firstOverlap rest
      end
  end.

(** Modelled from the spec: [checkPathOverlap] of [./utils/path.js], whose
    source is missing. "Given the full candidate set, reject if any two
    resolved paths are equal or one is a path-prefix of another (directory
    containment in either direction); signal OverlappingVaults." *)
Definition checkPathOverlap (paths : list string) : option Thrown :=
  match firstOverlap paths with
  | Some (p, q) =>
      Some (McpError InvalidRequest ("OverlappingVaults: " +:+ p +:+ ", " +:+ q))
  | None => None
  end.

End Overlap.

(** ** A sample installation

    Concrete collaborators on which the statements below are exercised: a
    disk given by its directories and files with POSIX paths that are
    already normalized, the path checks and the admission limits in the
    words of the specification, and three tools. *)

Module Sample.

(** *** Host *)

Record Disk := { directories : list string; files : list string }.

Definition ENOENT : Cli.FsError := {| Cli.code := "ENOENT"; Cli.text := "no such file or directory" |}.

Fixpoint lastSegment (current : string) (s : string) : string :=
  match s with
  | EmptyString => String.rev current
  | String c rest =>
      if decide (c = "/"%char) then
        (if decide (rest = "") then String.rev current else lastSegment "" rest)
      else lastSegment (String c current) rest
  end.

Definition node (disk : Disk) : Cli.Node := {|
  Cli.os_homedir := "/home/user";
  Cli.path_join := λ a b, if String.prefix "/" b then a +:+ b else a +:+ "/" +:+ b;
  Cli.path_normalize := λ p, p;
  Cli.path_resolve := λ p, p;
  Cli.path_isAbsolute := λ p, String.prefix "/" p;
  Cli.path_basename := lastSegment "";
  Cli.fs_stat := λ p,
    if decide (p ∈ directories disk) then Cli.StatOk true
    else if decide (p ∈ files disk) then Cli.StatOk false
    else Cli.StatFails ENOENT;
  Cli.fs_access := λ p _,
    if decide (p ∈ directories disk ++ files disk) then None else Some ENOENT;
|}.

(** *** Path checks

    The sources of the path checks are missing; the sample ones follow the
    wording of the specification on POSIX paths. *)

Fixpoint hasControlCharacter (s : string) : bool :=
  match s with
  | EmptyString => false
  | String c rest => (nat_of_ascii c <? 32)%nat || hasControlCharacter rest
  end.

(** Modelled from the spec: [checkPathCharacters], whose source is missing;
    "reject paths containing control characters, NUL". *)
Definition checkPathCharacters (p : string) : option string :=
  if hasControlCharacter p then Some "contains invalid characters" else None.

(** Modelled from the spec: [checkLocalPath], whose source is missing;
    "reject UNC/network-share syntax, known network-mount prefixes" (the
    sample disk has no symbolic links). *)
Definition checkLocalPath (p : string) : option string :=
  if String.prefix "//" p || String.prefix "/net/" p
     || String.prefix "/mnt/" p || String.prefix "/media/" p
  then Some "network or remote path" else None.

Fixpoint hasHiddenSegment (s : string) : bool :=
  match s with
  | String "/"%char (String "."%char _) => true
  | String _ rest => hasHiddenSegment rest
  | EmptyString => false
  end.

(** Modelled from the spec: [checkSuspiciousPath], whose source is missing;
    "reject well-known system directories, reject hidden directories
    (dot-prefixed), reject the filesystem user-home root itself". *)
Definition checkSuspiciousPath (p : string) : option string :=
  if String.prefix "/tmp" p || String.prefix "/etc" p || String.prefix "/usr" p
  then Some "system directory"
  else if hasHiddenSegment p then Some "hidden directory"
  else if bool_decide (p = "/home/user") then Some "home directory root"
  else None.

Definition lower (c : ascii) : ascii :=
  let n := nat_of_ascii c in
  if (65 <=? n)%nat && (n <=? 90)%nat then ascii_of_nat (n + 32) else c.

Definition alphanumeric (c : ascii) : bool :=
  let n := nat_of_ascii c in
  ((48 <=? n) && (n <=? 57) || (97 <=? n) && (n <=? 122))%nat.

(** [pending] tells that a run of other characters awaits its hyphen; a run
    at either end of the name gets none. *)
Fixpoint hyphenate (started pending : bool) (s : string) : string :=
  match s with
  | EmptyString => ""
  | String c rest =>
      let c := lower c in
      if alphanumeric c then
        (if started && pending then String "-"%char (String c (hyphenate true false rest))
         else String c (hyphenate true false rest))
      else hyphenate started true rest
  end.

(** Modelled from the spec: [sanitizeVaultName], whose source is missing;
    "lowercase, non-alphanumeric runs collapsed to a single hyphen,
    leading/trailing hyphens trimmed". *)
Definition sanitizeVaultName (rawName : string) : string := hyphenate false false rawName.

Definition pathUtils : Cli.PathUtils := {|
  Cli.checkPathCharacters := checkPathCharacters;
  Cli.checkLocalPath := checkLocalPath;
  Cli.checkSuspiciousPath := checkSuspiciousPath;
  Cli.sanitizeVaultName := sanitizeVaultName;
  Cli.checkPathOverlap := Overlap.checkPathOverlap;
|}.

(** A disk on which the given directories are initialized vaults. *)
Definition diskOf (vaultDirs : list string) : Disk := {|
  directories := vaultDirs ≫= λ dir, [dir; dir +:+ "/.obsidian"];
  files := (λ dir, dir +:+ "/.obsidian/app.json") <$> vaultDirs;
|}.

(** The vaults [/vaults/v1 ... /vaults/vn]. *)
Definition vaultDir (i : nat) : string := "/vaults/v" +:+ pretty i.
Definition vaultDirs (n : nat) : list string := vaultDir <$> seq 1 n.

(** *** Admission *)

(** The size of a value, standing for its serialized length. *)
Fixpoint valueSize (v : Value) : nat :=
  match v with
  | Undefined | Null | Bool _ | Num _ => 1
  | Str s => String.length s
  | Arr items => S (foldr (λ x acc, valueSize x + acc)%nat 0%nat items)
  | Obj props => S (foldr (λ kx acc, String.length kx.1 + valueSize kx.2 + acc)%nat 0%nat props)
  end.

Definition messageSize (request : Request) : nat :=
  (String.length (method request) + valueSize (params request))%nat.

(** Modelled from the spec: [./utils/security.js], whose source is missing.
    The size guard fails above a fixed ceiling, the monitor keeps the time
    of the last activity, and the limiter keeps per key the times of the
    calls within the sliding window. *)
Definition security (ceiling maxRequests : nat) (timeWindow : Z) : Security := {|
  RateLimiter := gmap string (list Z);
  ConnectionMonitor := Z;
  validateMessageSize := λ request,
    if decide (ceiling < messageSize request)%nat
    then Some (McpError InvalidRequest "Message size exceeds limit") else None;
  updateActivity := λ now _, now;
  checkLimit := λ key now limiter,
    let recent := filter (λ t, now - t < timeWindow)%Z (default [] (limiter !! key)) in
    if decide (length recent < maxRequests)%nat
    then (true, <[key := recent ++ [now]]> limiter)
    else (false, <[key := recent]> limiter);
|}.

(** *** Tools

    The world of the sample tools is the list of notes written so far. *)

Definition textContent (text : string) : Value :=
  Arr [Obj [("type", Str "text"); ("text", Str text)]].

Definition required (field : string) : ZodIssue :=
  {| Js.path := [Key field]; Js.message := "Required" |}.

(** [z.object({ message: z.string() })]. *)
Definition messageSchema : Server.SchemaHandler := {|
  Server.parse := λ args,
    match prop "message" args with
    | Str text => Return (Obj [("message", Str text)])
    | _ => Throw (ZodError [required "message"])
    end;
  Server.jsonSchema :=
    Obj [("type", Str "object");
         ("properties", Obj [("message", Obj [("type", Str "string")])]);
         ("required", Arr [Str "message"])];
|}.

(** The tool of the repository's test: it answers with its argument. *)
Definition echo : Server.Tool (list string) := {|
  Server.name := "echo";
  Server.description := "Echo back provided text";
  Server.inputSchema := messageSchema;
  Server.handler := λ args notes,
    match prop "message" args with
    | Str text => (Return {| Server.ToolResult.content := textContent text |}, notes)
    | _ => (Throw (OtherError "message is not a string"), notes)
    end;
|}.

(** A tool that writes: it appends its argument to the notes, and throws
    an ordinary error on an empty one. *)
Definition jot : Server.Tool (list string) := {|
  Server.name := "jot";
  Server.description := "Append a note";
  Server.inputSchema := messageSchema;
  Server.handler := λ args notes,
    match prop "message" args with
    | Str text =>
        if decide (text = "") then (Throw (OtherError "Nothing to write"), notes)
        else (Return {| Server.ToolResult.content := textContent "saved" |}, notes ++ [text])
    | _ => (Throw (OtherError "message is not a string"), notes)
    end;
|}.

(** A tool whose handler validates a second value with Zod after writing,
    and lets the [ZodError] escape. *)
Definition strict : Server.Tool (list string) := {|
  Server.name := "strict";
  Server.description := "Append a note, then check its title";
  Server.inputSchema := messageSchema;
  Server.handler := λ args notes,
    (Throw (ZodError [required "title"]), notes ++ ["draft"]);
|}.

Definition sec : Security := security 4096 2 60000.

(** A server as its constructor leaves it, with one vault and no note. *)
Definition fresh : @Server.State sec (list string) :=
  {| Server.this := @Server.constructed sec _ [("v1", "/vaults/v1")] ∅ 0%Z;
     Server.world := [] |}.

(** A second tool under the name ["echo"]. *)
Definition shout : Server.Tool (list string) := {|
  Server.name := "echo";
  Server.description := "Echo, louder";
  Server.inputSchema := messageSchema;
  Server.handler := λ args notes,
    (Return {| Server.ToolResult.content := textContent "HI" |}, notes);
|}.

(** The server after [main] has registered the three tools. *)
Definition ready : @Server.State sec (list string) :=
  final (Server.registerAll (Sec := sec) [echo; jot; strict] fresh).

Definition callRequest (tool : string) (args : Value) : Request :=
  {| method := "tools/call";
     params := Obj [("name", Str tool); ("arguments", args)] |}.

End Sample.

(** ** The JavaScript engine and the protocol SDK, as far as the units rely on them *)

Class Engine := {
  toLowerCase : string → string;          (* String.prototype.toLowerCase *)
  trim : string → string;                 (* String.prototype.trim *)
  integerOf : string → option Z;
    (* Number(s), when Number.isInteger holds of it *)
  destructureError : Value → string;
    (* the message of the TypeError of [const { name } = v] for [v] undefined or null *)
}.

(** [new McpError(code, text).message], which the SDK builds from both. *)
Class Sdk := { mcpErrorMessage : ErrorCode → string → string }.

(** ** The other request handlers of the server class *)

Module Catalog.

(** The imports from [./utils/prompt-factory.js] and
    [./resources/resources.js]; the asynchronous ones act on the world
    outside the server and may throw. *)
Class Collaborators (World : Type) := {
  listPrompts : Value;
  getPrompt : string → list (string * string) → Value →
              World → Completion (list (string * Value)) * World;
  listVaultResources : list (string * string) → World → Completion Value * World;
  readVaultResource : list (string * string) → string → World → Completion Value * World;
}.

Section Handlers.
Context `{Sec : Security} `{Eng : Engine} {World : Type} `{Col : !Collaborators World}.
Import Server.

(** [await f(...)] on a collaborator: its completion, and its effect on the world. *)
Definition awaited {A} (f : World → Completion A * World) : M (State World) A :=
  λ st, let '(r, w) := f (world st) in (r, {| this := this st; world := w |}, []).

(** The handler of [ListPromptsRequestSchema]. *)
Definition listPromptsHandler (now : Z) (request : Request) : M (State World) Value :=
  exec validateRequest now request;
  ret listPrompts.

(** [{...result, _meta: meta}] on the properties of [result]. *)
Definition withMeta (result : list (string * Value)) (meta : Value) : Value :=
  Obj (JsMap.set "_meta" meta result).

(** The handler of [GetPromptRequestSchema]. Destructuring
    [request.params] throws a [TypeError] when it is undefined or null.
    The [timestamp] is the time of the call, whose ISO text the response
    carries. *)
Definition getPromptHandler (now : Z) (request : Request) : M (State World) Value :=
  exec validateRequest now request;
  match params request with
  | Undefined | Null => throw (OtherError (destructureError (params request)))
  | params =>
      let args := prop "arguments" params in
      match nonEmptyString (prop "name" params) with
      | None => throw (McpError InvalidParams "Missing or invalid prompt name")
      | Some name =>
          do vs <- gets (λ st, vaults (this st));
          do result <- awaited (getPrompt name vs args);
          ret (withMeta result (Obj [("promptName", Str name); ("timestamp", Num now)]))
      end
  end.

(** The handler of [ListResourcesRequestSchema]. *)
Definition listResourcesHandler (now : Z) (request : Request) : M (State World) Value :=
  exec validateRequest now request;
  do vs <- gets (λ st, vaults (this st));
  do resources <- awaited (listVaultResources vs);
  ret (Obj [("resources", resources); ("resourceTemplates", Arr [])]).

(** The handler of [ReadResourceRequestSchema]; [request.params?.uri]
    reads [undefined] on anything that is no object. *)
Definition readResourceHandler (now : Z) (request : Request) : M (State World) Value :=
  exec validateRequest now request;
  match nonEmptyString (prop "uri" (params request)) with
  | None => throw (McpError InvalidParams "Missing or invalid URI parameter")
  | Some uri =>
      if negb (String.prefix "obsidian-vault://" uri) then
        throw (McpError InvalidParams "Invalid URI format. Only vault resources are supported.")
      else
        do vs <- gets (λ st, vaults (this st));
        do contents <- awaited (readVaultResource vs uri);
        ret (Obj [("contents", Arr [contents])])
  end.

(** The request passes the size guard and the rate limiter. *)
Definition admitted (now : Z) (request : Request) (st : State World) : Prop :=
  validateMessageSize request = None ∧
  (checkLimit (method request) now (rateLimiter (this st))).1 = true.

End Handlers.

End Catalog.

(** ** The option loop of [main] *)

Module Argv.

Inductive TransportMode := stdio | http.

Record CliOptions := {
  transport : TransportMode;
  host : string;
  port : Z;
  httpPath : string;
  allowedOrigins : list string;
  allowedHosts : list string;
  enableDnsRebindingProtection : bool;
}.

(** [cliOptions] as [main] initializes it. *)
Definition defaults : CliOptions := {|
  transport := stdio;
  host := "0.0.0.0";
  port := 8080;
  httpPath := "/mcp";
  allowedOrigins := [];
  allowedHosts := [];
  enableDnsRebindingProtection := false;
|}.

(** The calls of [exitWithCliError], by their message. *)
Inductive CliError :=
| MissingValue (name : string)       (* "Missing value for name" *)
| InvalidTransport (value : string)  (* "Invalid transport "value". ..." *)
| InvalidPort (given : string)       (* "Invalid port "Number(given)". ..." *)
| UnknownOption (flag : string).     (* "Unknown option: flag" *)

(** How the loop ends: the help text and [process.exit(0)], an error and
    [process.exit(1)], or the options and the vault paths. *)
Inductive Parse :=
| Help
| Failed (e : CliError)
| Parsed (options : CliOptions) (vaultArgs : list string).

(** The piece of [s] before its first [=]. *)
Fixpoint beforeEquals (s : string) : string :=
  match s with
  | EmptyString => ""
  | String c rest => if decide (c = "="%char) then "" else String c (beforeEquals rest)
  end.

(** The rest of [s] after its first [=], when it has one. *)
Fixpoint afterEquals (s : string) : option string :=
  match s with
  | EmptyString => None
  | String c rest => if decide (c = "="%char) then Some rest else afterEquals rest
  end.

(** [const [flag, inlineValue] = arg.split("=", 2)]: at most two pieces
    are kept, so the value ends before a second [=]. *)
Definition split2 (arg : string) : string * option string :=
  (beforeEquals arg, beforeEquals <$> afterEquals arg).

Section Loop.
Context `{Eng : Engine}.

Definition set_transport (t : TransportMode) (o : CliOptions) : CliOptions :=
  {| transport := t; host := host o; port := port o; httpPath := httpPath o;
     allowedOrigins := allowedOrigins o; allowedHosts := allowedHosts o;
     enableDnsRebindingProtection := enableDnsRebindingProtection o |}.

Definition set_host (h : string) (o : CliOptions) : CliOptions :=
  {| transport := transport o; host := h; port := port o; httpPath := httpPath o;
     allowedOrigins := allowedOrigins o; allowedHosts := allowedHosts o;
     enableDnsRebindingProtection := enableDnsRebindingProtection o |}.

Definition set_port (p : Z) (o : CliOptions) : CliOptions :=
  {| transport := transport o; host := host o; port := p; httpPath := httpPath o;
     allowedOrigins := allowedOrigins o; allowedHosts := allowedHosts o;
     enableDnsRebindingProtection := enableDnsRebindingProtection o |}.

Definition set_httpPath (p : string) (o : CliOptions) : CliOptions :=
  {| transport := transport o; host := host o; port := port o; httpPath := p;
     allowedOrigins := allowedOrigins o; allowedHosts := allowedHosts o;
     enableDnsRebindingProtection := enableDnsRebindingProtection o |}.

Definition push_allowedOrigin (x : string) (o : CliOptions) : CliOptions :=
  {| transport := transport o; host := host o; port := port o; httpPath := httpPath o;
     allowedOrigins := allowedOrigins o ++ [x]; allowedHosts := allowedHosts o;
     enableDnsRebindingProtection := enableDnsRebindingProtection o |}.

Definition push_allowedHost (x : string) (o : CliOptions) : CliOptions :=
  {| transport := transport o; host := host o; port := port o; httpPath := httpPath o;
     allowedOrigins := allowedOrigins o; allowedHosts := allowedHosts o ++ [x];
     enableDnsRebindingProtection := enableDnsRebindingProtection o |}.

Definition enable_protection (o : CliOptions) : CliOptions :=
  {| transport := transport o; host := host o; port := port o; httpPath := httpPath o;
     allowedOrigins := allowedOrigins o; allowedHosts := allowedHosts o;
     enableDnsRebindingProtection := true |}.

(** The cases of the [switch] that read a value: what each does with it. *)
Definition takesValue (flag : string) : option (string → CliOptions → CliError + CliOptions) :=
  if decide (flag = "--transport") then
    Some (λ given o,
      let value := toLowerCase given in
      if decide (value = "stdio") then inr (set_transport stdio o)
      else if decide (value = "http") then inr (set_transport http o)
      else inl (InvalidTransport value))
  else if decide (flag = "--host") then Some (λ given o, inr (set_host given o))
  else if decide (flag = "--port") then
    Some (λ given o,
      match integerOf given with
      | Some value =>
          if decide (value < 1 ∨ value > 65535)%Z then inl (InvalidPort given)
          else inr (set_port value o)
      | None => inl (InvalidPort given)
      end)
  else if decide (flag = "--http-path") then
    Some (λ given o,
      let value := trim given in
      inr (set_httpPath (if String.prefix "/" value then value else "/" +:+ value) o))
  else if decide (flag = "--allowed-origin") then
    Some (λ given o, inr (push_allowedOrigin given o))
  else if decide (flag = "--allowed-host") then
    Some (λ given o, inr (push_allowedHost given o))
  else None.

(** [!next || next.startsWith("--")] in [readValue]. *)
Definition noValue (next : string) : bool :=
  bool_decide (next = "") || String.prefix "--" next.

(** The [for] loop over [rawArgs], from the argument at hand on. In the
    cases that read a value, [readValue] takes the inline value when the
    argument has one, and the next argument otherwise, which the loop then
    skips. *)
Fixpoint optionLoop (options : CliOptions) (vaultArgs : list string)
    (rawArgs : list string) {struct rawArgs} : Parse :=
  match rawArgs with
  | [] => Parsed options vaultArgs
  | arg :: rest =>
      if decide (arg = "--") then Parsed options (vaultArgs ++ rest)
      else if negb (String.prefix "--" arg) || bool_decide (arg = "--help")
              || bool_decide (arg = "-h") then
        if bool_decide (arg = "--help") || bool_decide (arg = "-h") then Help
        else optionLoop options (vaultArgs ++ [arg]) rest
      else
        let '(flag, inlineValue) := split2 arg in
        match takesValue flag with
        | Some assign =>
            match inlineValue with
            | Some value =>
                match assign value options with
                | inl e => Failed e
                | inr options' => optionLoop options' vaultArgs rest
                end
            | None =>
                match rest with
                | [] => Failed (MissingValue flag)
                | next :: rest' =>
                    if noValue next then Failed (MissingValue flag)
                    else
                      match assign next options with
                      | inl e => Failed e
                      | inr options' => optionLoop options' vaultArgs rest'
                      end
                end
            end
        | None =>
            if decide (flag = "--enable-dns-rebinding-protection") then
              optionLoop (enable_protection options) vaultArgs rest
            else Failed (UnknownOption flag)
        end
  end.

(** The loop on [process.argv.slice(2)]. *)
Definition parseArgs (rawArgs : list string) : Parse := optionLoop defaults [] rawArgs.

End Loop.

End Argv.

(** ** The constructor's vault table, [start], [stop] and the signal handler *)

Module Lifecycle.

Section Vaults.
Context `{Host : Cli.Node} `{Protocol : Sdk}.

(** [expandHome] of the server unit: only [~] itself and paths under [~/]. *)
Definition expandHome (filepath : string) : string :=
  if String.prefix "~/" filepath || bool_decide (filepath = "~")
  then Cli.path_join Cli.os_homedir (Cli.slice1 filepath)
  else filepath.

(** What the [catch] of the constructor can receive: a failure of
    [fs.statSync], or the [McpError] that the [try] block throws itself. *)
Inductive Caught :=
| FromFs (e : Cli.FsError)
| FromTry (code : ErrorCode) (text : string).

(** [error.code === 'ENOENT']: the code of an [McpError] is a number. *)
Definition isENOENT (c : Caught) : bool :=
  match c with
  | FromFs e => bool_decide (Cli.code e = "ENOENT")
  | FromTry _ _ => false
  end.

(** [(error as Error).message]. *)
Definition caughtMessage (c : Caught) : string :=
  match c with
  | FromFs e => Cli.text e
  | FromTry code text => mcpErrorMessage code text
  end.

(** The body of [vaultConfigs.forEach] up to [this.vaults.set]: the
    resolved path of the vault, or the error thrown. *)
Definition resolveVault (config : Cli.VaultConfig) : Completion string :=
  let expandedPath := expandHome (Cli.path config) in
  let resolvedPath := Cli.path_resolve expandedPath in
  let obsidianConfigPath := Cli.path_join resolvedPath ".obsidian" in
  let tried : Caught + unit :=
    match Cli.fs_stat obsidianConfigPath with
    | Cli.StatFails e => inl (FromFs e)
    | Cli.StatOk false =>
        inl (FromTry InvalidRequest
               ("Invalid Obsidian vault at " +:+ Cli.path config +:+
                ": .obsidian exists but is not a directory"))
    | Cli.StatOk true => inr tt
    end in
  match tried with
  | inr _ => Return resolvedPath
  | inl error =>
      if isENOENT error then
        Throw (McpError InvalidRequest
                 ("Invalid Obsidian vault at " +:+ Cli.path config +:+
                  ": Missing .obsidian directory. Please open this folder in Obsidian first to initialize it."))
      else
        Throw (McpError InvalidRequest
                 ("Error accessing vault at " +:+ Cli.path config +:+ ": " +:+
                  caughtMessage error))
  end.

(** [vaultConfigs.forEach], on the [vaults] map built so far. *)
Fixpoint forEachConfig (vaults : list (string * string))
    (vaultConfigs : list Cli.VaultConfig) : Completion (list (string * string)) :=
  match vaultConfigs with
  | [] => Return vaults
  | config :: rest =>
      match resolveVault config with
      | Return resolvedPath =>
          forEachConfig (JsMap.set (Cli.name config) resolvedPath vaults) rest
      | Throw e => Throw e
      end
  end.

(** The constructor up to the end of "Initialize vaults": [this.vaults],
    or the error thrown. *)
Definition constructorVaults (vaultConfigs : list Cli.VaultConfig)
    : Completion (list (string * string)) :=
  if decide (length vaultConfigs = 0) then
    Throw (McpError InvalidRequest
             "No vault configurations provided. At least one valid Obsidian vault is required.")
  else forEachConfig [] vaultConfigs.

(** The directory whose [.obsidian] the constructor looks at. *)
Definition resolvedPathOf (config : Cli.VaultConfig) : string :=
  Cli.path_resolve (expandHome (Cli.path config)).

(** The vault has an [.obsidian] that is a directory. *)
Definition initialized (config : Cli.VaultConfig) : Prop :=
  Cli.fs_stat (Cli.path_join (resolvedPathOf config) ".obsidian") = Cli.StatOk true.

End Vaults.

(** *** [start] and [stop]

    The transport, the HTTP listener and the protocol server are objects of
    the SDK and of Node; what each of their calls does, return or throw, is
    given from outside. *)

Inductive Transport := StdioTransport | HttpTransport.

(** The fields [activeTransport] and [httpServer]. *)
Record Handles := { activeTransport : option Transport; httpServer : bool }.

(** How [server.listen] of [start] answers: its callback runs; the call
    itself throws (arguments out of range), which rejects the promise around
    it; or the server emits ["error"] (a port in use), on which the [once]
    listener rejects the promise and the [on] listener logs. *)
Inductive Listening :=
| Listens
| ListenThrows (e : Thrown)
| ListenFails (e : Thrown).

Record Answers := {
  connect : option Thrown;          (* this.server.connect(transport) *)
  listen : Listening;               (* server.listen(port, host, callback) *)
  monitorStop : option Thrown;      (* this.connectionMonitor.stop() *)
  transportClose : option Thrown;   (* this.activeTransport.close() *)
  httpServerClose : option Thrown;  (* this.httpServer.close(callback) *)
  serverClose : option Thrown;      (* this.server.close() *)
}.

(** The calls on these objects, and the fixed head of each line logged. *)
Inductive Step :=
| Connect (t : Transport)
| Listen
| MonitorStop
| TransportClose (t : Transport)
| HttpServerClose
| ServerClose
| Logged (text : string).

(** The calls among the steps, without the lines logged. *)
Definition isCall (s : Step) : bool :=
  match s with
  | Logged _ => false
  | _ => true
  end.

Definition calls (steps : list Step) : list Step := filter (λ s, isCall s = true) steps.

(** A call whose answer is given: it returns, or throws and ends the function. *)
Definition attempt (answer : option Thrown) (h : Handles) (done : list Step)
    (next : Completion unit * Handles * list Step) : Completion unit * Handles * list Step :=
  match answer with
  | Some e => (Throw e, h, done)
  | None => next
  end.

(** [start(config)], by the type of [config]. The fields are assigned
    after [connect] and [listen] have succeeded. *)
Definition start (a : Answers) (mode : Argv.TransportMode) (h : Handles)
    : Completion unit * Handles * list Step :=
  match mode with
  | Argv.http =>
      attempt (connect a) h [Connect HttpTransport]
        match listen a with
        | ListenThrows e => (Throw e, h, [Connect HttpTransport; Listen])
        | ListenFails e =>
            (Throw e, h, [Connect HttpTransport; Listen; Logged "HTTP server error:"])
        | Listens =>
            (Return tt,
             {| activeTransport := Some HttpTransport; httpServer := true |},
             [Connect HttpTransport; Listen; Logged "Obsidian MCP Server running on http://"])
        end
  | Argv.stdio =>
      attempt (connect a) h [Connect StdioTransport]
        (Return tt,
         {| activeTransport := Some StdioTransport; httpServer := httpServer h |},
         [Connect StdioTransport; Logged "Obsidian MCP Server running on stdio"])
  end.

(** The first [if] of [stop]: a failure of [close] is logged. *)
Definition closeTransport (a : Answers) (h : Handles) : Handles * list Step :=
  match activeTransport h with
  | Some t =>
      ({| activeTransport := None; httpServer := httpServer h |},
       TransportClose t ::
       match transportClose a with
       | Some _ => [Logged "Error closing transport:"]
       | None => []
       end)
  | None => (h, [])
  end.

(** The second [if] of [stop]: the rejection of the promise is logged. *)
Definition closeHttpServer (a : Answers) (h : Handles) : Handles * list Step :=
  if httpServer h then
    ({| activeTransport := activeTransport h; httpServer := false |},
     HttpServerClose ::
     match httpServerClose a with
     | Some _ => [Logged "Error closing HTTP server:"]
     | None => []
     end)
  else (h, []).

(** [stop()]. *)
Definition stop (a : Answers) (h : Handles) : Completion unit * Handles * list Step :=
  attempt (monitorStop a) h [MonitorStop]
    (let '(h1, steps1) := closeTransport a h in
     let '(h2, steps2) := closeHttpServer a h1 in
     let done := [MonitorStop] ++ steps1 ++ steps2 ++ [ServerClose] in
     match serverClose a with
     | Some e => (Throw e, h2, done)
     | None => (Return tt, h2, done ++ [Logged "Obsidian MCP Server stopped"])
     end).

(** [shutdown(signal)] of [main]: the flag [isShuttingDown], and the exit
    status when this call is the one that stops the server. *)
Definition shutdown (a : Answers) (isShuttingDown : bool) (h : Handles)
    : bool * Handles * list Step * option Z :=
  if isShuttingDown then (true, h, [], None)
  else
    let '(r, h', steps) := stop a h in
    (true, h', steps,
     Some match r with
          | Return _ => 0%Z
          | Throw _ => 1%Z
          end).

(** Both fields [undefined], as the class declares them. *)
Definition unset : Handles := {| activeTransport := None; httpServer := false |}.

(** For the statements: the closes that go with the fields that are set,
    and with each mode of [start]. *)
Definition owed (h : Handles) : list Step :=
  match activeTransport h with
  | Some t => [TransportClose t]
  | None => []
  end ++ (if httpServer h then [HttpServerClose] else []).

Definition opened (mode : Argv.TransportMode) : list Step :=
  match mode with
  | Argv.stdio => [TransportClose StdioTransport]
  | Argv.http => [TransportClose HttpTransport; HttpServerClose]
  end.

End Lifecycle.

(** ** Calls that stop at the first failure

    For the statements about the callback of [main]: of attempts made one
    after the other, each a call with whether it lets the next be made,
    the calls up to the first that does not. *)

Fixpoint upToFirstFailure (attempts : list (Cli.Call * bool)) : list Cli.Call :=
  match attempts with
  | [] => []
  | (call, passed) :: rest => call :: if passed then upToFirstFailure rest else []
  end.

(** The check has no complaint, the access no error. *)
Definition answersNone {A} (answer : option A) : bool :=
  match answer with
  | None => true
  | Some _ => false
  end.

(** [stat] returned, and [isDirectory()] holds of what it returned. *)
Definition foundDirectory (stats : Cli.Stats) : bool :=
  match stats with
  | Cli.StatOk true => true
  | _ => false
  end.

(** ** More of the sample installation *)

Module Fixture.

Fixpoint decimal (acc : Z) (s : string) : option Z :=
  match s with
  | EmptyString => Some acc
  | String c rest =>
      match Ascii.is_nat c with
      | Some d => decimal (10 * acc + Z.of_nat d)%Z rest
      | None => None
      end
  end.

Fixpoint dropSpaces (s : string) : string :=
  match s with
  | String c rest => if Ascii.is_space c then dropSpaces rest else s
  | EmptyString => ""
  end.

(** The engine on ASCII text: [integerOf] reads the decimal numerals, on
    which it is [Number]; [toLowerCase] and [trim] are those of the engine
    on text without other letters or spaces than the ASCII ones. *)
Definition engine : Engine := {|
  toLowerCase := λ s,
    String.string_of_list_ascii (Sample.lower <$> String.list_ascii_of_string s);
  trim := λ s, String.rev (dropSpaces (String.rev (dropSpaces s)));
  integerOf := λ s, if decide (s = "") then Some 0%Z else decimal 0 s;
  destructureError := λ _,
    "Cannot destructure property 'name' of 'request.params' as it is undefined.";
|}.

Definition codeNumber (code : ErrorCode) : string :=
  match code with
  | InvalidRequest => "-32600"
  | MethodNotFound => "-32601"
  | InvalidParams => "-32602"
  | InternalError => "-32603"
  end.

(** The message as the SDK's [McpError] builds it. *)
Definition sdk : Sdk := {|
  mcpErrorMessage := λ code text, "MCP error " +:+ codeNumber code +:+ ": " +:+ text;
|}.

(** One prompt, whose renderer answers with a [_meta] of its own, and the
    vaults as resources; reading appends to the notes of the world. *)
Definition collaborators : Catalog.Collaborators (list string) := {|
  Catalog.listPrompts := Obj [("prompts", Arr [Obj [("name", Str "list-vaults")]])];
  Catalog.getPrompt := λ name vaults args notes,
    if decide (name = "list-vaults") then
      (Return [("messages", Arr [Str (join ", " (JsMap.keys vaults))]);
               ("_meta", Str "renderer")], notes)
    else (Throw (McpError InvalidParams ("Prompt not found: " +:+ name)), notes);
  Catalog.listVaultResources := λ vaults notes,
    (Return (Arr ((λ k, Obj [("uri", Str ("obsidian-vault://" +:+ k))])
                    <$> JsMap.keys vaults)), notes);
  Catalog.readVaultResource := λ vaults uri notes,
    match list_find (λ k, uri = "obsidian-vault://" +:+ k) (JsMap.keys vaults) with
    | Some (_, k) => (Return (Obj [("uri", Str uri); ("name", Str k)]), notes ++ ["read " +:+ k])
    | None => (Throw (OtherError ("Vault not found: " +:+ uri)), notes)
    end;
|}.

Definition request (method : string) (params : Value) : Request :=
  {| method := method; params := params |}.

(** [z.object({ tags: z.array(z.string()) })]: one issue per element of
    [tags] that is no string, under the path of that element. *)
Definition tagIssues (items : list Value) : list ZodIssue :=
  omap (λ iv, match iv.2 with
              | Str _ => None
              | _ => Some {| Js.path := [Key "tags"; Index (N.of_nat iv.1)];
                             Js.message := "Expected string" |}
              end)
       (imap pair items).

Definition tagsSchema : Server.SchemaHandler := {|
  Server.parse := λ args,
    match args with
    | Obj _ =>
        match prop "tags" args with
        | Arr items =>
            match tagIssues items with
            | [] => Return (Obj [("tags", Arr items)])
            | issues => Throw (ZodError issues)
            end
        | Undefined => Throw (ZodError [Sample.required "tags"])
        | _ => Throw (ZodError [{| Js.path := [Key "tags"]; Js.message := "Expected array" |}])
        end
    | _ => Throw (ZodError [{| Js.path := []; Js.message := "Expected object" |}])
    end;
  Server.jsonSchema :=
    Obj [("type", Str "object");
         ("properties", Obj [("tags", Obj [("type", Str "array")])]);
         ("required", Arr [Str "tags"])];
|}.

(** A tool that writes its tags to the notes. *)
Definition label : Server.Tool (list string) := {|
  Server.name := "label";
  Server.description := "Add tags";
  Server.inputSchema := tagsSchema;
  Server.handler := λ args notes,
    (Return {| Server.ToolResult.content := Sample.textContent "tagged" |},
     notes ++ ["tags"]);
|}.

(** [z.object({ due: z.string().transform(toDate) })] with a [toDate]
    that throws an ordinary [Error] on a text that is no date: Zod lets
    what a transform throws through as it is. *)
Definition dueSchema : Server.SchemaHandler := {|
  Server.parse := λ args,
    match prop "due" args with
    | Str text =>
        if decide (text = "soon") then Throw (OtherError "Invalid date: soon")
        else Return (Obj [("due", Str text)])
    | _ => Throw (ZodError [Sample.required "due"])
    end;
  Server.jsonSchema :=
    Obj [("type", Str "object");
         ("properties", Obj [("due", Obj [("type", Str "string")])]);
         ("required", Arr [Str "due"])];
|}.

(** A tool that writes a reminder to the notes. *)
Definition remind : Server.Tool (list string) := {|
  Server.name := "remind";
  Server.description := "Set a reminder";
  Server.inputSchema := dueSchema;
  Server.handler := λ args notes,
    (Return {| Server.ToolResult.content := Sample.textContent "set" |},
     notes ++ ["reminder"]);
|}.

(** The sample server with these two tools registered as well. *)
Definition served : @Server.State Sample.sec (list string) :=
  final (Server.registerAll (Sec := Sample.sec) [label; remind] Sample.ready).


Definition EACCES : Cli.FsError :=
  {| Cli.code := "EACCES"; Cli.text := "permission denied" |}.

(** The sample host with some paths that may not be accessed. *)
Definition guarded (disk : Sample.Disk) (denied : list string) : Cli.Node := {|
  Cli.os_homedir := Cli.os_homedir (Node := Sample.node disk);
  Cli.path_join := Cli.path_join (Node := Sample.node disk);
  Cli.path_normalize := Cli.path_normalize (Node := Sample.node disk);
  Cli.path_resolve := Cli.path_resolve (Node := Sample.node disk);
  Cli.path_isAbsolute := Cli.path_isAbsolute (Node := Sample.node disk);
  Cli.path_basename := Cli.path_basename (Node := Sample.node disk);
  Cli.fs_stat := Cli.fs_stat (Node := Sample.node disk);
  Cli.fs_access := λ p mode,
    if decide (p ∈ denied) then Some EACCES
    else Cli.fs_access (Node := Sample.node disk) p mode;
|}.

End Fixture.


(** * Properties *)

(** ** Maps in insertion order *)

Section JsMapFacts.
Context {V : Type}.
Implicit Types (k : string) (v : V) (m : list (string * V)).
Import JsMap.

Lemma keys_set k v m :
  keys (set k v m) = if decide (k ∈ keys m) then keys m else keys m ++ [k].
Proof.
  unfold keys. induction m as [|[k' v'] m IH]; cbn [set fmap list_fmap fst].
  - case_decide as Hin; [by apply elem_of_nil in Hin | done].
  - destruct (decide (k' = k)) as [->|Hne]; cbn [fmap list_fmap fst].
    + rewrite decide_True; [done | by left].
    + rewrite IH. destruct (decide (k ∈ m.*1)) as [Hin|Hnin].
      * rewrite decide_True; [done | by right].
      * rewrite decide_False; [done |].
        intros [?|?]%elem_of_cons; by simplify_eq.
Qed.

Lemma keys_set_NoDup k v m : NoDup (keys m) → NoDup (keys (set k v m)).
Proof.
  intros Hnd. rewrite keys_set. case_decide; [done |].
  apply NoDup_app. split_and!; [done | | apply NoDup_singleton].
  intros x Hx ->%list_elem_of_singleton. done.
Qed.

Lemma get_set_eq k v m : get k (set k v m) = Some v.
Proof.
  induction m as [|[k' v'] m IH]; simpl.
  - by rewrite decide_True.
  - destruct (decide (k' = k)) as [->|Hne]; simpl.
    + by rewrite decide_True.
    + by rewrite decide_False.
Qed.

Lemma get_set_ne k k' v m : k ≠ k' → get k' (set k v m) = get k' m.
Proof.
  intros Hne. induction m as [|[k0 v0] m IH]; simpl.
  - by rewrite decide_False.
  - destruct (decide (k0 = k)) as [->|Hne0]; simpl.
    + by rewrite !decide_False.
    + by rewrite IH.
Qed.

Lemma get_None k m : get k m = None ↔ k ∉ keys m.
Proof.
  unfold keys. induction m as [|[k0 v0] m IH]; cbn [get fmap list_fmap fst].
  - split; [intros _ ?%elem_of_nil; done | done].
  - rewrite not_elem_of_cons. case_decide as Hk.
    + split; [done | intros [Hne _]; by subst].
    + rewrite IH. split; [intros ?; split; [congruence | done] | by intros [_ ?]].
Qed.

End JsMapFacts.

(** ** The tool registry *)

Section RegistryFacts.
Context `{Sec : Security} {World : Type}.
Import Server.
Implicit Types (st : State World) (tool : Tool World) (ts : list (string * Tool World)).

Lemma wellKeyed_nil : wellKeyed ([] : list (string * Tool World)).
Proof. split; [apply NoDup_nil_2 | apply Forall_nil_2]. Qed.

Lemma set_Forall_keyed tool ts :
  Forall (λ kt, name kt.2 = kt.1) ts →
  Forall (λ kt, name kt.2 = kt.1) (JsMap.set (name tool) tool ts).
Proof.
  induction 1 as [|[k t] ts Hk Hts IH]; cbn [JsMap.set].
  - by apply Forall_singleton.
  - case_decide; apply Forall_cons; auto.
Qed.

Lemma wellKeyed_set tool ts : wellKeyed ts → wellKeyed (JsMap.set (name tool) tool ts).
Proof.
  intros [Hnd Hall]. split; [by apply keys_set_NoDup | by apply set_Forall_keyed].
Qed.

Lemma listed_names ts :
  Forall (λ kt, name kt.2 = kt.1) ts → Listed.name <$> listed ts = JsMap.keys ts.
Proof.
  unfold listed, JsMap.values, JsMap.keys.
  induction 1 as [|[k t] ts Hk Hts IH]; [done |].
  cbn in *. by rewrite IH, Hk.
Qed.

(** What [registerTool] leaves behind. *)
Lemma registerTool_unfold tool st :
  registerTool tool st =
    (Return tt,
     set_tools (JsMap.set (name tool) tool) st,
     [ConsoleError ("Registering tool: " +:+ name tool);
      ConsoleError ("Current tools: " +:+
                    join ", " (JsMap.keys (JsMap.set (name tool) tool (tools (this st)))))]).
Proof. reflexivity. Qed.

Lemma registerAll_tools (tools0 : list (Tool World)) st :
  result (registerAll tools0 st) = Return tt ∧
  tools (this (final (registerAll tools0 st))) =
    foldl (λ ts tool, JsMap.set (name tool) tool ts) (tools (this st)) tools0 ∧
  world (final (registerAll tools0 st)) = world st.
Proof.
  revert st. induction tools0 as [|tool rest IH]; intros st; [done |].
  cbn [registerAll foldl]. unfold bind, try_catch. rewrite registerTool_unfold.
  specialize (IH (set_tools (JsMap.set (name tool) tool) st)).
  destruct (registerAll rest _) as [[r s] t] eqn:Hrest.
  unfold result, final in *. cbn in *. done.
Qed.

Lemma foldl_set_wellKeyed (tools0 : list (Tool World)) ts :
  wellKeyed ts → wellKeyed (foldl (λ ts tool, JsMap.set (name tool) tool ts) ts tools0).
Proof.
  revert ts. induction tools0 as [|tool rest IH]; intros ts Hts; [done |].
  cbn [foldl]. by apply IH, wellKeyed_set.
Qed.

(** C1, as the code has it. [registerTool] has no duplicate check and never
    fails: the tool given last is the one stored under its name, tools under
    other names stay, and a name that was present keeps its place in the
    order of the registry. Whatever tools are registered on a newly
    constructed server, in whatever order, the listing of the list-tools
    handler names no tool twice. *)
Theorem registerTool_overwrites_and_listing_has_no_duplicate :
  (∀ tool st,
     let after := tools (this (final (registerTool tool st))) in
     result (registerTool tool st) = Return tt ∧
     JsMap.get (name tool) after = Some tool ∧
     (∀ other, name tool ≠ other → JsMap.get other after = JsMap.get other (tools (this st))) ∧
     (name tool ∈ JsMap.keys (tools (this st)) →
      JsMap.keys after = JsMap.keys (tools (this st)))) ∧
  (∀ (tools0 : list (Tool World)) vs rl cm (w : World),
     let st := final (registerAll tools0 {| this := constructed vs rl cm; world := w |}) in
     NoDup (Listed.name <$> listed (tools (this st))) ∧
     ∀ now request,
       result (validateRequest now request st) = Return tt →
       result (listToolsHandler now request st) = Return (listed (tools (this st)))).
Proof.
  split.
  - intros tool st after. subst after. rewrite registerTool_unfold.
    unfold result, final. cbn [fst snd set_tools this tools].
    split_and!; [done | apply get_set_eq | by intros; apply get_set_ne |].
    intros Hin. rewrite keys_set. by rewrite decide_True.
  - intros tools0 vs rl cm w st.
    destruct (registerAll_tools tools0 {| this := constructed vs rl cm; world := w |})
      as (_ & Htools & _).
    assert (wellKeyed (tools (this st))) as [Hnd Hkeyed].
    { subst st. rewrite Htools. apply foldl_set_wellKeyed, wellKeyed_nil. }
    split; [by rewrite listed_names |].
    intros now request Hok. unfold listToolsHandler, bind.
    destruct (validateRequest now request st) as [[r s] t] eqn:Hv.
    unfold result in *. cbn in Hok. subst r. cbn.
    (* validateRequest leaves the tools as they are *)
    revert Hv. unfold validateRequest, try_catch, bind, call_validateMessageSize,
      call_updateActivity, call_checkLimit, bind, emit, gets, modify, ret, throw, console_error.
    cbn. destruct (validateMessageSize request); cbn.
    + intros [=].
    + destruct (checkLimit _ _ _) as [[] rl']; cbn; intros [= <- <-]; done.
Qed.

End RegistryFacts.

(** C1, as the claim has it, fails: on a server where ["echo"] is
    registered, registering a second tool under that name returns normally,
    and the handler found under ["echo"] afterwards is the second one. *)
Lemma registerTool_accepts_a_registered_name :
  let st := final (Server.registerTool (Sec := Sample.sec) Sample.echo Sample.fresh) in
  let again := Server.registerTool (Sec := Sample.sec) Sample.shout st in
  Server.name Sample.shout ∈ JsMap.keys (Server.tools (Server.this st)) ∧
  result again = Return tt ∧
  JsMap.get "echo" (Server.tools (Server.this st)) = Some Sample.echo ∧
  JsMap.get "echo" (Server.tools (Server.this (final again))) = Some Sample.shout.
Proof. cbv zeta. split_and!; [by apply list_elem_of_singleton | done..]. Qed.

(** ** Admission control *)

Section AdmissionFacts.
Context `{Sec : Security} {World : Type}.
Import Server.
Implicit Types (st : State World) (request : Request) (now : Z).

Lemma validateRequest_unfold now request st :
  validateRequest now request st =
    match validateMessageSize request with
    | Some e =>
        (Throw e, st, [ValidateMessageSize; ConsoleError "Request validation failed:"])
    | None =>
        if (checkLimit (method request) now (rateLimiter (this st))).1 then
          (Return tt, admittedState now request st,
           [ValidateMessageSize; UpdateActivity; CheckLimit (method request)])
        else
          (Throw (McpError InvalidRequest "Rate limit exceeded"),
           admittedState now request st,
           [ValidateMessageSize; UpdateActivity; CheckLimit (method request);
            ConsoleError "Request validation failed:"])
    end.
Proof.
  unfold validateRequest, try_catch, bind, call_validateMessageSize,
    call_updateActivity, call_checkLimit, bind, emit, gets, modify, ret, throw,
    console_error, admittedState.
  cbn. destruct (validateMessageSize request); cbn; [done |].
  destruct (checkLimit _ _ _) as [[] rl]; done.
Qed.

(** A request that admission turns away ends the handlers there, with the
    error and the trace of [validateRequest]. *)
Lemma handlers_stop_at_admission now request st e :
  result (validateRequest now request st) = Throw e →
  callToolHandler now request st =
    (Throw e, final (validateRequest now request st), trace (validateRequest now request st)) ∧
  listToolsHandler now request st =
    (Throw e, final (validateRequest now request st), trace (validateRequest now request st)).
Proof.
  unfold callToolHandler, listToolsHandler, bind, result, final, trace.
  destruct (validateRequest now request st) as [[[] s] t]; cbn; [done |].
  by intros [= ->].
Qed.

(** C8. Admission calls the size guard, then updates the activity clock,
    then asks the rate limiter, each once and in this order. A message
    that fails the size guard stops there with the guard's error and the
    server as it was: the clock is not updated and the limiter is not
    asked. Otherwise the clock of the connection monitor is updated to
    [now] and the limiter is the one its check leaves, whether it admits
    the request or turns it away with "Rate limit exceeded"; the tools,
    the vaults and the world are as they were. A handler whose request is
    turned away ends with that error, having done nothing beyond the
    admission steps. *)
Theorem validateRequest_admission_in_order now request st :
  let out := validateRequest now request st in
  match validateMessageSize request with
  | Some e =>
      admissionSteps (trace out) = [ValidateMessageSize] ∧ result out = Throw e ∧
      final out = st
  | None =>
      admissionSteps (trace out) =
        [ValidateMessageSize; UpdateActivity; CheckLimit (method request)] ∧
      result out =
        (if (checkLimit (method request) now (rateLimiter (this st))).1 then Return tt
         else Throw (McpError InvalidRequest "Rate limit exceeded")) ∧
      final out = admittedState now request st ∧
      connectionMonitor (this (final out)) = updateActivity now (connectionMonitor (this st)) ∧
      rateLimiter (this (final out)) =
        (checkLimit (method request) now (rateLimiter (this st))).2 ∧
      tools (this (final out)) = tools (this st) ∧
      vaults (this (final out)) = vaults (this st) ∧
      world (final out) = world st
  end ∧
  ∀ e, result out = Throw e →
       result (callToolHandler now request st) = Throw e ∧
       trace (callToolHandler now request st) = trace out ∧
       final (callToolHandler now request st) = final out.
Proof.
  intros out. split.
  - subst out. rewrite validateRequest_unfold.
    destruct (validateMessageSize request); [done |].
    by destruct (checkLimit _ _ _).1.
  - intros e He. by destruct (handlers_stop_at_admission now request st e He) as [-> _].
Qed.

(** C10. After [validateRequest] the connection monitor is the one updated
    at [now] when the size guard let the request pass, whatever the rate
    limiter answered, and the monitor as it was when the size guard threw. *)
Theorem validateRequest_activity_follows_size_guard now request st :
  connectionMonitor (this (final (validateRequest now request st))) =
    match validateMessageSize request with
    | None => updateActivity now (connectionMonitor (this st))
    | Some _ => connectionMonitor (this st)
    end.
Proof.
  rewrite validateRequest_unfold.
  destruct (validateMessageSize request); [done |].
  by destruct (checkLimit _ _ _).1.
Qed.

End AdmissionFacts.

(** ** Dispatch of a tool call *)

Section StringFacts.

Lemma string_app_nil_r (s : string) : s +:+ "" = s.
Proof.
  induction s as [|c s IH]; [done |].
  change (String c (s +:+ "") = String c s). by rewrite IH.
Qed.

Lemma string_app_assoc (s1 s2 s3 : string) : (s1 +:+ s2) +:+ s3 = s1 +:+ s2 +:+ s3.
Proof.
  induction s1 as [|c s1 IH]; [done |].
  change (String c ((s1 +:+ s2) +:+ s3) = String c (s1 +:+ s2 +:+ s3)). by rewrite IH.
Qed.

Lemma occursIn_refl (s : string) : Server.occursIn s s.
Proof. exists "", "". by rewrite string_app_nil_r. Qed.

Lemma occursIn_app_l (part s1 s2 : string) :
  Server.occursIn part s1 → Server.occursIn part (s1 +:+ s2).
Proof.
  intros (before & after & ->). exists before, (after +:+ s2).
  by rewrite !string_app_assoc.
Qed.

Lemma occursIn_app_r (part s1 s2 : string) :
  Server.occursIn part s2 → Server.occursIn part (s1 +:+ s2).
Proof.
  intros (before & after & ->). exists (s1 +:+ before), after.
  by rewrite !string_app_assoc.
Qed.

Lemma join_occursIn (sep x : string) (parts : list string) :
  x ∈ parts → Server.occursIn x (join sep parts).
Proof.
  induction parts as [|y parts IH]; [by intros ?%elem_of_nil |].
  intros [->|Hin]%elem_of_cons.
  - destruct parts; [apply occursIn_refl | apply occursIn_app_l, occursIn_refl].
  - destruct parts as [|z parts]; [by apply elem_of_nil in Hin |].
    change (join sep (y :: z :: parts)) with (y +:+ sep +:+ join sep (z :: parts)).
    by apply occursIn_app_r, occursIn_app_r, IH.
Qed.

End StringFacts.

Section DispatchFacts.
Context `{Sec : Security} {World : Type}.
Import Server.
Implicit Types (st : State World) (request : Request) (now : Z) (tool : Tool World).

Lemma callToolHandler_dispatched now request st toolName tool :
  dispatched now request st toolName tool →
  callToolHandler now request st =
    let st1 := admittedState now request st in
    match parse (inputSchema tool) (prop "arguments" (params request)) with
    | Throw e =>
        let '(r, s, t) := callToolCatch e st1 in (r, s, upToParse request tool ++ t)
    | Return validatedArgs =>
        match handler tool validatedArgs (world st1) with
        | (Return res, w) =>
            (Return {| _meta := {| toolName := toolName; timestamp := now; success := true |};
                       content := ToolResult.content res |},
             {| this := this st1; world := w |},
             upToParse request tool ++ [HandlerCall (name tool)])
        | (Throw e, w) =>
            let '(r, s, t) := callToolCatch e {| this := this st1; world := w |} in
            (r, s, upToParse request tool ++ HandlerCall (name tool) :: t)
        end
    end.
Proof.
  intros (Hsize & Hrate & Hobj & Hname & Hget).
  unfold callToolHandler, bind at 1. rewrite validateRequest_unfold, Hsize, Hrate, Hobj, Hname.
  cbn [negb]. unfold bind, gets. cbn [admittedState set_rateLimiter set_connectionMonitor this tools].
  rewrite Hget. unfold try_catch, bind, call_parse, call_handler, bind, emit, ret, throw.
  destruct (parse _ _) as [validatedArgs|e]; cbn.
  - destruct (handler tool validatedArgs (world st)) as [[res|e] w]; cbn; [done |].
    by destruct (callToolCatch e _) as [[r s] t].
  - by destruct (callToolCatch e _) as [[r s] t].
Qed.

(** C6, as the code has it. A call that reaches the schema of its tool
    with arguments that the schema turns down, that is, on which [parse]
    throws, never reaches the handler: no call of it is in the trace and
    the world is as it was. The call throws, and what it throws goes by
    what [parse] threw. For a [ZodError] it is [InvalidParams] with one
    message: the heading and then one line per issue, joined by line
    feeds, the line of an issue being its path, the keys as they are and
    the indices in decimal, joined by dots, then a colon and a space, then
    its message, or the message alone when the path joins to the empty
    string; the line of every issue is in the message. A protocol error
    is thrown on as it is, and anything else is [InternalError] with
    "Tool execution failed: " before its text. *)
Theorem callTool_rejected_arguments_never_reach_the_handler
    now request st toolName tool thrown :
  dispatched now request st toolName tool →
  parse (inputSchema tool) (prop "arguments" (params request)) = Throw thrown →
  let out := callToolHandler now request st in
  let line issue :=
    let dotted := join "." ((λ seg, match seg with
                                    | Key k => k
                                    | Index i => pretty i
                                    end) <$> Js.path issue) in
    (if decide (dotted = "") then "" else dotted +:+ ": ") +:+ Js.message issue in
  world (final out) = world st ∧
  (∀ called, HandlerCall called ∉ trace out) ∧
  result out =
    Throw match thrown with
          | ZodError issues =>
              McpError InvalidParams ("Invalid arguments:" +:+ LF +:+ join LF (line <$> issues))
          | McpError code text => McpError code text
          | OtherError text | OtherValue text =>
              McpError InternalError ("Tool execution failed: " +:+ text)
          end ∧
  ∀ issues issue,
    thrown = ZodError issues → issue ∈ issues →
    occursIn (line issue) ("Invalid arguments:" +:+ LF +:+ join LF (line <$> issues)).
Proof.
  intros Hd Hparse out line.
  assert (out = (Throw match thrown with
                       | ZodError issues =>
                           McpError InvalidParams
                             ("Invalid arguments:" +:+ LF +:+ join LF (line <$> issues))
                       | McpError code text => McpError code text
                       | OtherError text | OtherValue text =>
                           McpError InternalError ("Tool execution failed: " +:+ text)
                       end,
                 admittedState now request st, upToParse request tool ++ [])) as ->.
  { subst out. rewrite (callToolHandler_dispatched _ _ _ _ _ Hd), Hparse.
    by destruct thrown. }
  unfold result, final, trace. cbn [fst snd]. split_and!.
  - done.
  - intros called Hin. rewrite app_nil_r in Hin. unfold upToParse in Hin.
    repeat (apply elem_of_cons in Hin as [[=]|Hin]). by apply elem_of_nil in Hin.
  - done.
  - intros issues issue _ Hin. apply occursIn_app_r, occursIn_app_r, join_occursIn.
    by apply list_elem_of_fmap_2.
Qed.

(** C7, as the code has it. When the handler of a dispatched call throws,
    the call throws too, after the handler's effect on the world: a
    protocol error as it is, a [ZodError] as [InvalidParams] with the
    issues listed, and anything else as [InternalError] with the text
    "Tool execution failed: " before the message of the error (or, for a
    value that is no error, before its string form). *)
Theorem callTool_handler_error_is_rethrown
    now request st toolName tool validatedArgs thrown w :
  dispatched now request st toolName tool →
  parse (inputSchema tool) (prop "arguments" (params request)) = Return validatedArgs →
  handler tool validatedArgs (world st) = (Throw thrown, w) →
  let out := callToolHandler now request st in
  world (final out) = w ∧
  result out =
    Throw match thrown with
          | McpError code text => McpError code text
          | ZodError issues =>
              McpError InvalidParams ("Invalid arguments:" +:+ LF +:+ formattedErrors issues)
          | OtherError text => McpError InternalError ("Tool execution failed: " +:+ text)
          | OtherValue str => McpError InternalError ("Tool execution failed: " +:+ str)
          end.
Proof.
  intros Hd Hparse Hthrow out. subst out.
  rewrite (callToolHandler_dispatched _ _ _ _ _ Hd), Hparse. cbn.
  rewrite Hthrow. by destruct thrown.
Qed.

End DispatchFacts.

(** C6 on the sample server: ["label"] called with two tags that are no
    strings. Each is listed under its path, and no tag is written. *)
Lemma callTool_rejected_arguments_sample :
  let request :=
    Sample.callRequest "label" (Obj [("tags", Arr [Str "a"; Num 1; Str "b"; Bool true])]) in
  let out := Server.callToolHandler (Sec := Sample.sec) 5 request Fixture.served in
  let issues := [{| Js.path := [Key "tags"; Index 1]; Js.message := "Expected string" |};
                 {| Js.path := [Key "tags"; Index 3]; Js.message := "Expected string" |}] in
  Server.dispatched (Sec := Sample.sec) 5 request Fixture.served "label" Fixture.label ∧
  Server.parse (Server.inputSchema Fixture.label) (prop "arguments" (params request)) =
    Throw (ZodError issues) ∧
  result out =
    Throw (McpError InvalidParams
             ("Invalid arguments:" +:+ LF +:+ "tags.1: Expected string" +:+ LF +:+
              "tags.3: Expected string")) ∧
  Server.world (final out) = [].
Proof.
  intros request out issues.
  assert (Server.dispatched (Sec := Sample.sec) 5 request Fixture.served "label" Fixture.label)
    as Hd by (repeat split; reflexivity).
  destruct (callTool_rejected_arguments_never_reach_the_handler
              (Sec := Sample.sec) 5 request Fixture.served "label" Fixture.label
              (ZodError issues) Hd eq_refl)
    as (Hworld & _ & Hresult & _).
  split_and!; [exact Hd | reflexivity | exact Hresult | exact Hworld].
Defined.

(** C6, as the claim has it, fails. The schema of ["remind"] turns the
    date ["soon"] down with an ordinary error, thrown by its transform.
    The handler is not reached and no reminder is written, but the call
    fails with [InternalError] and the text of that error, neither with
    [InvalidParams] nor with a listing of fields. *)
Lemma callTool_rejected_arguments_can_be_InternalError :
  let request := Sample.callRequest "remind" (Obj [("due", Str "soon")]) in
  let out := Server.callToolHandler (Sec := Sample.sec) 5 request Fixture.served in
  Server.dispatched (Sec := Sample.sec) 5 request Fixture.served "remind" Fixture.remind ∧
  Server.parse (Server.inputSchema Fixture.remind) (prop "arguments" (params request)) =
    Throw (OtherError "Invalid date: soon") ∧
  result out = Throw (McpError InternalError "Tool execution failed: Invalid date: soon") ∧
  (∀ text, result out ≠ Throw (McpError InvalidParams text)) ∧
  (∀ called, HandlerCall called ∉ trace out) ∧
  Server.world (final out) = [].
Proof.
  cbv zeta. split_and!; [repeat split; reflexivity | reflexivity | reflexivity | | | reflexivity].
  - intros text. vm_compute. discriminate.
  - intros called. vm_compute. intros Hin.
    repeat (apply elem_of_cons in Hin as [[=]|Hin]). by apply elem_of_nil in Hin.
Qed.

(** C7 on the sample server: ["jot"] throws an ordinary error on an empty
    note, and the call fails with [InternalError] and that text. *)
Lemma callTool_handler_error_sample :
  let request := Sample.callRequest "jot" (Obj [("message", Str "")]) in
  Server.dispatched (Sec := Sample.sec) 5 request Sample.ready "jot" Sample.jot ∧
  Server.handler Sample.jot (Obj [("message", Str "")]) (Server.world Sample.ready) =
    (Throw (OtherError "Nothing to write"), []) ∧
  result (Server.callToolHandler (Sec := Sample.sec) 5 request Sample.ready) =
    Throw (McpError InternalError "Tool execution failed: Nothing to write").
Proof.
  intros request.
  assert (Server.dispatched (Sec := Sample.sec) 5 request Sample.ready "jot" Sample.jot)
    as Hd by (repeat split; reflexivity).
  destruct (callTool_handler_error_is_rethrown
              (Sec := Sample.sec) 5 request Sample.ready "jot" Sample.jot
              (Obj [("message", Str "")]) (OtherError "Nothing to write") []
              Hd eq_refl eq_refl) as (_ & Hresult).
  split_and!; [exact Hd | reflexivity | exact Hresult].
Defined.

(** C7, as the claim has it, fails: the handler of ["strict"] throws a
    [ZodError], which is no protocol error; the call does not fail with
    [InternalError] but with [InvalidParams], under the heading of an
    argument error. *)
Lemma callTool_handler_ZodError_is_reported_as_InvalidParams :
  let request := Sample.callRequest "strict" (Obj [("message", Str "hi")]) in
  Server.dispatched (Sec := Sample.sec) 5 request Sample.ready "strict" Sample.strict ∧
  Server.parse (Server.inputSchema Sample.strict) (prop "arguments" (params request)) =
    Return (Obj [("message", Str "hi")]) ∧
  Server.handler Sample.strict (Obj [("message", Str "hi")]) (Server.world Sample.ready) =
    (Throw (ZodError [Sample.required "title"]), ["draft"]) ∧
  result (Server.callToolHandler (Sec := Sample.sec) 5 request Sample.ready) =
    Throw (McpError InvalidParams ("Invalid arguments:" +:+ LF +:+ "title: Required")).
Proof. cbv zeta. split_and!; [repeat split; reflexivity | reflexivity..]. Qed.

(** ** The HTTP route *)

Section HttpFacts.
Context `{Url : Http.UrlParser}.
Import Http.

Lemma repeatedRoute_configured (configured : string) : repeatedRoute configured configured.
Proof. exists 0%nat. cbn [copies]. by rewrite string_app_nil_r. Qed.

Lemma requestListener_other_path config req pathname :
  requestUrl req = Some (Some pathname) →
  pathname ≠ path config →
  requestListener config req = NotFound.
Proof. intros Hurl Hne. unfold requestListener. rewrite Hurl. by rewrite decide_True. Qed.

(** C3, as the code has it. A request without a URL is answered 404. A
    request on the configured path is not: [OPTIONS] is answered 204 with
    the [Allow] header, and every other method, whichever it is, goes to
    the transport. A request whose path is neither the configured one nor
    the configured one followed by copies of its leading segment is
    answered 404. *)
Theorem requestListener_routes_by_path_only config req :
  match requestUrl req with
  | None => requestListener config req = Rejects
  | Some None => requestListener config req = NotFound
  | Some (Some pathname) =>
      (pathname = path config →
       requestListener config req =
         if decide (method req = Some "OPTIONS")
         then Preflight "GET,POST,DELETE,OPTIONS" else Delegate) ∧
      (¬ repeatedRoute (path config) pathname → requestListener config req = NotFound)
  end.
Proof.
  destruct (requestUrl req) as [[pathname|]|] eqn:Hurl.
  - split.
    + intros ->. unfold requestListener. rewrite Hurl. by rewrite decide_False by auto.
    + intros Hout. apply (requestListener_other_path _ _ pathname); [done |].
      intros ->. apply Hout, repeatedRoute_configured.
  - unfold requestListener. by rewrite Hurl.
  - unfold requestListener. by rewrite Hurl.
Qed.

(** C4: the listener serves nothing under the configured path. A request
    for the sub-path [list_actions] of the configured path, whatever its
    method and body, is answered 404: no legacy list of the tools is
    produced that could be compared with the listing of [tools/list]. *)
Theorem requestListener_has_no_list_actions_route config req :
  requestUrl req = Some (Some (path config +:+ "/list_actions")) →
  requestListener config req = NotFound.
Proof.
  intros Hurl. apply (requestListener_other_path _ _ _ Hurl).
  intros Heq. rewrite <- (string_app_nil_r (path config)) in Heq at 2.
  by apply (inj (String.app (path config))) in Heq.
Qed.

End HttpFacts.

(** C3, as the claim has it, fails: [PUT] is not among the allowed methods,
    and a [PUT] on the configured path is not answered 404 but handed to
    the transport. *)
Lemma requestListener_hands_any_method_to_the_transport :
  Http.requestListener (Url := Http.originForm) {| Http.path := "/mcp" |}
    {| Http.url := Some "/mcp"; Http.method := Some "PUT";
       Http.headers_host := Some "127.0.0.1:8080" |}
  = Http.Delegate.
Proof. reflexivity. Qed.

(** The second test of the repository posts to [/mcp/mcp] on a server
    configured with [/mcp] and expects an answer; the listener answers 404. *)
Example requestListener_repeated_segment :
  Http.repeatedRoute "/mcp" "/mcp/mcp" ∧
  Http.requestListener (Url := Http.originForm) {| Http.path := "/mcp" |}
    {| Http.url := Some "/mcp/mcp"; Http.method := Some "POST";
       Http.headers_host := Some "127.0.0.1:8080" |}
  = Http.NotFound.
Proof. split; [by exists 1%nat | reflexivity]. Qed.

(** C4 on the first test of the repository, which posts [{}] to
    [/mcp/list_actions] on a server configured with [/mcp] and expects the
    list of actions: the listener answers 404. *)
Lemma requestListener_list_actions_test :
  let config := {| Http.path := "/mcp" |} in
  let req := {| Http.url := Some "/mcp/list_actions"; Http.method := Some "POST";
                Http.headers_host := Some "127.0.0.1:8080" |} in
  Http.requestUrl (Url := Http.originForm) req = Some (Some (Http.path config +:+ "/list_actions")) ∧
  Http.requestListener (Url := Http.originForm) config req = Http.NotFound.
Proof.
  intros config req.
  split; [reflexivity |].
  exact (requestListener_has_no_list_actions_route (Url := Http.originForm) config req eq_refl).
Defined.

(** ** Start-up: validation of the vault paths *)

Section MainFacts.
Context `{Host : Cli.Node} `{Utils : Cli.PathUtils}.
Import Cli.

Lemma rejectionsOf_fmap (vaultArgs : list string) :
  rejectionsOf vaultArgs (validateVaultPath <$> vaultArgs) =
    omap (λ p, match (validateVaultPath p).2 with
               | inl r => Some (p, r)
               | inr _ => None
               end) vaultArgs.
Proof.
  unfold rejectionsOf. induction vaultArgs as [|p rest IH]; [done |].
  cbn. rewrite IH. done.
Qed.

Lemma elem_of_rejectionsOf (vaultArgs : list string) p r :
  (p, r) ∈ rejectionsOf vaultArgs (validateVaultPath <$> vaultArgs) ↔
  p ∈ vaultArgs ∧ (validateVaultPath p).2 = inl r.
Proof.
  rewrite rejectionsOf_fmap, list_elem_of_omap. split.
  - intros (q & Hq & Hres). destruct (validateVaultPath q).2 eqn:Hv; simplify_eq. done.
  - intros [Hin Hres]. exists p. by rewrite Hres.
Qed.

Lemma rejectionsOf_nil (vaultArgs : list string) :
  rejectionsOf vaultArgs (validateVaultPath <$> vaultArgs) = [] ↔
  forallb passes vaultArgs = true.
Proof.
  rewrite rejectionsOf_fmap. unfold passes.
  induction vaultArgs as [|p rest IH]; [done |].
  cbn. destruct (validateVaultPath p).2; cbn; [done | apply IH].
Qed.

(** What a callback that returns has checked. *)
Lemma validateVaultPath_passes vaultPath :
  passes vaultPath = true →
  let absolutePath := absolutePathOf vaultPath in
  (validateVaultPath vaultPath).2 = inr absolutePath ∧
  checkLocalPath absolutePath = None ∧
  checkSuspiciousPath absolutePath = None ∧
  fs_stat absolutePath = StatOk true ∧
  fs_stat (path_join absolutePath ".obsidian") = StatOk true.
Proof.
  unfold passes, validateVaultPath. cbv zeta.
  destruct (path_isAbsolute _); cbn; [| done].
  unfold vbind, called, reject, vret.
  destruct (checkLocalPath _); [done |].
  destruct (checkSuspiciousPath _); [done |].
  destruct (fs_stat (absolutePathOf vaultPath)) as [[]|]; [| done..].
  destruct (fs_access (absolutePathOf vaultPath) _); [done |].
  destruct (fs_stat (path_join _ _)) as [[]|]; [| done..].
  destruct (fs_access (path_join _ _) _); done.
Qed.

Lemma acceptedOf_passes (vaultArgs : list string) :
  forallb passes vaultArgs = true →
  acceptedOf (validateVaultPath <$> vaultArgs) = absolutePathOf <$> vaultArgs.
Proof.
  unfold acceptedOf. induction vaultArgs as [|p rest IH]; [done |].
  cbn [forallb]. intros [Hp Hrest]%andb_prop.
  destruct (validateVaultPath_passes p Hp) as (Hres & _).
  cbn. rewrite Hres. cbn. by rewrite IH.
Qed.


Lemma main_nonempty (vaultArgs : list string) :
  length vaultArgs ≠ 0 →
  main vaultArgs =
    let results := validateVaultPath <$> vaultArgs in
    match rejectionsOf vaultArgs results with
    | (_ :: _) as rejections =>
        {| validation := results.*1; overlapChecked := false;
           outcome := PathsRejected rejections |}
    | [] =>
        if decide (MAX_VAULTS < length vaultArgs) then
          {| validation := results.*1; overlapChecked := false;
             outcome := TooManyVaults (length vaultArgs) |}
        else
          {| validation := results.*1; overlapChecked := true;
             outcome :=
               match checkPathOverlap (acceptedOf results) with
               | Some error => OverlappingVaults error
               | None =>
                   match uniqueVaultsOf
                           ((λ vaultPath,
                               {| name := sanitizeVaultName (path_basename vaultPath);
                                  path := vaultPath |}) <$> acceptedOf results) with
                   | Some uniqueVaults => StartServer uniqueVaults
                   | None => NamingDiverges
                   end
               end |}
    end.
Proof.
  intros Hne. unfold main. rewrite decide_False by done. cbv zeta.
  destruct (rejectionsOf _ _) eqn:Hrej; [| done].
  case_decide; [done |].
  apply rejectionsOf_nil in Hrej. rewrite (acceptedOf_passes _ Hrej).
  rewrite decide_False by (rewrite length_fmap; done).
  by destruct (checkPathOverlap _).
Qed.

(** C2, as the code has it. With more vault paths than [MAX_VAULTS] the run
    ends in an exit and never reaches the overlap check, but the cap is
    looked at after the validation callback has run on every path: the
    "too many vaults" error is the outcome when every path passes its
    validation, and otherwise the outcome is the rejection of one of the
    paths that do not pass. *)
Theorem main_checks_the_cap_after_validation (vaultArgs : list string) :
  MAX_VAULTS < length vaultArgs →
  let run := main vaultArgs in
  validation run = (λ p, (validateVaultPath p).1) <$> vaultArgs ∧
  overlapChecked run = false ∧
  exits (outcome run) = true ∧
  (forallb passes vaultArgs = true → outcome run = TooManyVaults (length vaultArgs)) ∧
  (forallb passes vaultArgs = false →
   ∃ rejections,
     outcome run = PathsRejected rejections ∧ rejections ≠ [] ∧
     ∀ p r, (p, r) ∈ rejections ↔ p ∈ vaultArgs ∧ (validateVaultPath p).2 = inl r).
Proof.
  intros Hcap run. subst run.
  rewrite main_nonempty by (unfold MAX_VAULTS in Hcap; lia). cbv zeta.
  pose proof (rejectionsOf_nil vaultArgs) as Hnil.
  pose proof (elem_of_rejectionsOf vaultArgs) as Hin.
  destruct (rejectionsOf _ _) as [|rejection rejections].
  - rewrite decide_True by done. cbn. rewrite <- list_fmap_compose.
    split_and!; [done.. |].
    intros Hfail. destruct Hnil as [Hnil _]. rewrite Hnil in Hfail; done.
  - cbn. rewrite <- list_fmap_compose. split_and!; [done.. | |].
    + intros Hall. apply Hnil in Hall. done.
    + intros _. by exists (rejection :: rejections).
Qed.


End MainFacts.

(** ** The overlap check *)

Section OverlapFacts.
Import Overlap.






End OverlapFacts.

Section OrderFacts.
Context `{Host : Cli.Node} `{Utils : Cli.PathUtils}.
Import Cli.


End OrderFacts.

(** ** Start-up: the names of the vaults *)

Section NamingFacts.
Import Cli.
Implicit Types (usedNames tried : gset string) (vaults : list VaultConfig).

Lemma numbered_inj (vaultName : string) (k k' : N) :
  numbered vaultName k = numbered vaultName k' → k = k'.
Proof.
  unfold numbered. intros Heq.
  apply (inj (String.app vaultName)), (inj (String.app "-")) in Heq.
  by apply (inj pretty) in Heq.
Qed.

Lemma numbered_ne (vaultName : string) (k : N) : numbered vaultName k ≠ vaultName.
Proof.
  unfold numbered. intros Heq.
  rewrite <- (string_app_nil_r vaultName) in Heq at 2.
  by apply (inj (String.app vaultName)) in Heq.
Qed.

(** What the loop returns is free; it is the name it started with, or the
    first free one among the numbered names from [counter] on. *)
Lemma whileUsed_Some fuel usedNames vaultName uniqueName counter found :
  whileUsed fuel usedNames vaultName uniqueName counter = Some found →
  (found ∉ usedNames) ∧
  (found = uniqueName ∨
   uniqueName ∈ usedNames ∧
   ∃ k : N, (counter ≤ k)%N ∧ found = numbered vaultName k ∧
            ∀ j : N, (counter ≤ j < k)%N → numbered vaultName j ∈ usedNames).
Proof.
  revert uniqueName counter.
  induction fuel as [|fuel IH]; intros uniqueName counter; cbn [whileUsed].
  - case_decide; [done |]. intros [= <-]. auto.
  - case_decide as Hused; [| intros [= <-]; auto].
    intros [Hfree [->|(Hc & k & Hk & -> & Hbelow)]]%IH; (split; [done |]); right;
      (split; [done |]).
    + exists counter. split_and!; [lia | done | intros j ?; lia].
    + exists k. split_and!; [lia | done |].
      intros j Hj. destruct (decide (j = counter)) as [->|]; [done |].
      apply Hbelow. lia.
Qed.

(** The loop ends within as many turns as there are used names that it has
    not yet tried. *)
Lemma whileUsed_enough fuel usedNames tried vaultName uniqueName counter :
  tried ⊆ usedNames →
  uniqueName ∉ tried →
  (∀ k : N, (counter ≤ k)%N →
            (numbered vaultName k ∉ tried) ∧ numbered vaultName k ≠ uniqueName) →
  size usedNames ≤ fuel + size tried →
  is_Some (whileUsed fuel usedNames vaultName uniqueName counter).
Proof.
  revert tried uniqueName counter.
  induction fuel as [|fuel IH]; intros tried uniqueName counter Hsub Hnew Hnext Hsize;
    cbn [whileUsed]; (case_decide as Hused; [| by eexists]).
  - assert (size ({[uniqueName]} ∪ tried) ≤ size usedNames) as Hle
      by (apply subseteq_size; set_solver).
    rewrite size_union, size_singleton in Hle by set_solver. lia.
  - apply (IH ({[uniqueName]} ∪ tried)).
    + set_solver.
    + destruct (Hnext counter) as [? ?]; [lia |]. set_solver.
    + intros k Hk. destruct (Hnext k) as [? ?]; [lia |]. split; [set_solver |].
      intros Heq%numbered_inj. lia.
    + rewrite size_union, size_singleton by set_solver. lia.
Qed.

(** One turn of the [forEach] on a state whose used names are those of the
    vaults named so far. *)
Lemma forEachVault_turn (uniqueVaults : list VaultConfig) vault :
  ∃ uniqueName,
    forEachVault (Some (uniqueVaults, list_to_set (name <$> uniqueVaults))) vault =
      Some (uniqueVaults ++ [{| name := uniqueName; path := path vault |}],
            list_to_set (name <$> (uniqueVaults ++ [{| name := uniqueName; path := path vault |}]))) ∧
    (uniqueName ∉ name <$> uniqueVaults) ∧
    assigned (name <$> uniqueVaults) (name vault) uniqueName.
Proof.
  set (usedNames := list_to_set (name <$> uniqueVaults) : gset string).
  destruct (whileUsed_enough (size usedNames) usedNames ∅ (name vault) (name vault) 1)
    as [found Hfound].
  { set_solver. }
  { set_solver. }
  { intros k _. split; [set_solver | apply numbered_ne]. }
  { lia. }
  exists found. cbn. rewrite Hfound. cbn. split_and!.
  - do 2 f_equal. rewrite fmap_app, list_to_set_app_L. cbn. set_solver.
  - apply whileUsed_Some in Hfound as [Hfree _]. set_solver.
  - apply whileUsed_Some in Hfound as [Hfree Hwhich]. unfold assigned.
    assert (∀ x, x ∈ usedNames ↔ x ∈ name <$> uniqueVaults) as Hmem
      by (intros x; subst usedNames; apply elem_of_list_to_set).
    case_decide as Hin.
    + destruct Hwhich as [->|(_ & k & Hk & -> & Hbelow)]; [by apply Hmem in Hin |].
      exists k. split_and!; [done | done | by rewrite <- Hmem |].
      intros j Hj. apply Hmem, Hbelow, Hj.
    + destruct Hwhich as [->|(Hused & _)]; [done | by apply Hmem in Hused].
Qed.

Lemma foldl_forEachVault_None vaults : foldl forEachVault None vaults = None.
Proof. induction vaults as [|vault rest IH]; [done | apply IH]. Qed.

(** The [forEach] only ever adds to the end of [uniqueVaults]. *)
Lemma foldl_forEachVault_extends vaults state (uniqueVaults : list VaultConfig) usedNames :
  foldl forEachVault (Some state) vaults = Some (uniqueVaults, usedNames) →
  ∃ rest, uniqueVaults = state.1 ++ rest.
Proof.
  revert state. induction vaults as [|vault more IH]; intros [named used]; cbn [foldl].
  - intros [= <- <-]. exists []. by rewrite app_nil_r.
  - cbn. destruct (whileUsed _ _ _ _ _) as [found|]; cbn.
    + intros [rest ->]%IH. cbn. eexists. by rewrite <- app_assoc.
    + by rewrite foldl_forEachVault_None.
Qed.

Lemma foldl_forEachVault_names vaults :
  ∃ uniqueVaults : list VaultConfig,
    foldl forEachVault (Some ([], ∅)) vaults =
      Some (uniqueVaults, list_to_set (name <$> uniqueVaults)) ∧
    path <$> uniqueVaults = path <$> vaults ∧
    NoDup (name <$> uniqueVaults) ∧
    ∀ i vault unique,
      vaults !! i = Some vault → uniqueVaults !! i = Some unique →
      assigned (take i (name <$> uniqueVaults)) (name vault) (name unique).
Proof.
  induction vaults as [|vault vaults IH] using rev_ind.
  - exists []. split_and!; [done | done | apply NoDup_nil_2 | done].
  - destruct IH as (named & Hfold & Hpaths & Hnodup & Hassigned).
    destruct (forEachVault_turn named vault) as (uniqueName & Hturn & Hfree & Hname).
    exists (named ++ [{| name := uniqueName; path := path vault |}]).
    assert (length named = length vaults) as Hlen.
    { apply (f_equal length) in Hpaths. by rewrite !length_fmap in Hpaths. }
    split_and!.
    + by rewrite foldl_app, Hfold.
    + by rewrite !fmap_app, Hpaths.
    + rewrite fmap_app. apply NoDup_app. split_and!; [done | | apply NoDup_singleton].
      intros x Hx ->%list_elem_of_singleton. done.
    + intros i v u Hv Hu. rewrite fmap_app.
      destruct (decide (i < length vaults)) as [Hlt|Hge].
      * rewrite lookup_app_l in Hv by done. rewrite lookup_app_l in Hu by lia.
        rewrite take_app_le by (rewrite length_fmap; lia). by apply Hassigned.
      * assert (i = length vaults) as ->.
        { apply lookup_lt_Some in Hv. rewrite length_app in Hv. cbn in Hv. lia. }
        rewrite list_lookup_middle in Hv by done.
        rewrite list_lookup_middle in Hu by done. simplify_eq. cbn.
        rewrite take_app_length' by (by rewrite length_fmap). done.
Qed.

(** C9, as the code has it. The naming loop ends on every list of vaults.
    It keeps the paths in their order and gives names that differ from one
    another. A vault whose name is not among the names given before it
    keeps that name; every other vault gets its name with the suffix [-k]
    for the least [k >= 1] whose result is not among the names given before
    it. Vaults that come later do not change the names given earlier. *)
Theorem uniqueVaultsOf_names vaults :
  ∃ uniqueVaults,
    uniqueVaultsOf vaults = Some uniqueVaults ∧
    path <$> uniqueVaults = path <$> vaults ∧
    NoDup (name <$> uniqueVaults) ∧
    (∀ i vault unique,
       vaults !! i = Some vault → uniqueVaults !! i = Some unique →
       assigned (take i (name <$> uniqueVaults)) (name vault) (name unique)) ∧
    (∀ more, ∃ rest, uniqueVaultsOf (vaults ++ more) = Some (uniqueVaults ++ rest)).
Proof.
  destruct (foldl_forEachVault_names vaults) as (named & Hfold & Hpaths & Hnodup & Hassigned).
  exists named. unfold uniqueVaultsOf. rewrite Hfold. split_and!; [done.. |].
  intros more.
  destruct (foldl_forEachVault_names (vaults ++ more)) as (all & Hall & _).
  rewrite Hall. rewrite foldl_app, Hfold in Hall.
  apply foldl_forEachVault_extends in Hall as [rest ->]. by exists rest.
Qed.

End NamingFacts.

Section StartFacts.
Context `{Host : Cli.Node} `{Utils : Cli.PathUtils}.
Import Cli.

(** [main] always ends: in an exit, or with the server constructed on
    vaults whose names differ. *)
Lemma main_ends (vaultArgs : list string) :
  exits (outcome (main vaultArgs)) = true ∨
  ∃ uniqueVaults,
    outcome (main vaultArgs) = StartServer uniqueVaults ∧ NoDup (name <$> uniqueVaults).
Proof.
  destruct (decide (length vaultArgs = 0)) as [Hz|Hnz].
  { left. unfold main. by rewrite decide_True. }
  rewrite main_nonempty by done. cbv zeta.
  destruct (rejectionsOf _ _); [| by left].
  case_decide; [by left |]. cbn.
  destruct (checkPathOverlap _); [by left |].
  destruct (foldl_forEachVault_names
              ((λ vaultPath, {| name := sanitizeVaultName (path_basename vaultPath);
                                path := vaultPath |})
                 <$> acceptedOf (validateVaultPath <$> vaultArgs)))
    as (named & Hfold & _ & Hnodup & _).
  unfold uniqueVaultsOf. rewrite Hfold. right. by exists named.
Qed.

End StartFacts.

(** ** The sample installation at start-up *)

(** C2 on eleven initialized vaults: the cap is what ends the run. *)
Lemma main_checks_the_cap_sample :
  let vaultArgs := Sample.vaultDirs 11 in
  Cli.MAX_VAULTS < length vaultArgs ∧
  Cli.outcome
    (Cli.main (Host := Sample.node (Sample.diskOf vaultArgs)) (Utils := Sample.pathUtils)
       vaultArgs)
  = Cli.TooManyVaults 11.
Proof.
  intros vaultArgs.
  assert (Cli.MAX_VAULTS < length vaultArgs) as Hcap by (vm_compute; lia).
  destruct (main_checks_the_cap_after_validation
              (Host := Sample.node (Sample.diskOf vaultArgs)) (Utils := Sample.pathUtils)
              vaultArgs Hcap) as (_ & _ & _ & Hall & _).
  split; [exact Hcap | exact (Hall eq_refl)].
Defined.

(** C2, as the claim has it, fails. With eleven initialized vaults the run
    ends on the cap, after the callback of every path has made all its
    calls to the path checks and the file system. With the same eleven
    arguments on a disk where the last one does not exist, the run does not
    end on the cap but on the rejection of that path. *)
Lemma main_validates_every_path_before_the_cap :
  let vaultArgs := Sample.vaultDirs 11 in
  let all := Cli.main (Host := Sample.node (Sample.diskOf vaultArgs))
               (Utils := Sample.pathUtils) vaultArgs in
  let missing := Cli.main (Host := Sample.node (Sample.diskOf (Sample.vaultDirs 10)))
                   (Utils := Sample.pathUtils) vaultArgs in
  length vaultArgs = 11 ∧
  Cli.outcome all = Cli.TooManyVaults 11 ∧
  length (Cli.validation all) = 11 ∧
  Cli.validation all !! 10 =
    Some [Cli.CheckSuspiciousPath "/vaults/v11"; Cli.CheckLocalPath "/vaults/v11";
          Cli.Stat "/vaults/v11"; Cli.Access "/vaults/v11" Cli.R_OK_W_OK;
          Cli.Stat "/vaults/v11/.obsidian";
          Cli.Access "/vaults/v11/.obsidian/app.json" Cli.R_OK] ∧
  Cli.outcome missing = Cli.PathsRejected [("/vaults/v11", Cli.DoesNotExist)].
Proof. cbv zeta. split_and!; vm_compute; reflexivity. Qed.



(** C9, as the claim has it, fails. Of four vaults in the directories [a],
    [a], [a-1] and [a-1], the third is the first with the name ["a-1"], and
    the fourth has that name too; the third does not keep the name, which
    the second vault has taken, and becomes ["a-1-1"]. *)
Lemma uniqueVaultsOf_first_seen_name_can_be_taken :
  let vaultArgs := ["/x/a"; "/y/a"; "/x/a-1"; "/y/a-1"] in
  (Sample.sanitizeVaultName ∘ Cli.path_basename (Node := Sample.node (Sample.diskOf vaultArgs)))
    <$> vaultArgs = ["a"; "a"; "a-1"; "a-1"] ∧
  Cli.outcome
    (Cli.main (Host := Sample.node (Sample.diskOf vaultArgs)) (Utils := Sample.pathUtils)
       vaultArgs)
  = Cli.StartServer
      [{| Cli.name := "a"; Cli.path := "/x/a" |};
       {| Cli.name := "a-1"; Cli.path := "/y/a" |};
       {| Cli.name := "a-1-1"; Cli.path := "/x/a-1" |};
       {| Cli.name := "a-1-2"; Cli.path := "/y/a-1" |}].
Proof. cbv zeta. split; vm_compute; reflexivity. Qed.

(** ** The sample installation under load *)

(** C10 on the sample server, whose limiter admits two calls a minute: the
    third call within the minute is turned away, and the monitor holds the
    time of that call. *)
Example validateRequest_rate_limited_sample :
  let request := Sample.callRequest "echo" (Obj [("message", Str "hi")]) in
  let validate now st := final (Server.validateRequest (Sec := Sample.sec) now request st) in
  let third := Server.validateRequest (Sec := Sample.sec) 30 request
                 (validate 20%Z (validate 10%Z Sample.ready)) in
  result third = Throw (McpError InvalidRequest "Rate limit exceeded") ∧
  Server.connectionMonitor (Server.this (final third)) = 30%Z.
Proof. cbv zeta. split; vm_compute; reflexivity. Qed.

(** The calls of the specification's end-to-end scenario: the echo tool
    answers [{message: "hi"}] with that text, and a name that is not
    registered is no method. *)
Example callTool_echo_and_unknown :
  let call tool args :=
    result (Server.callToolHandler (Sec := Sample.sec) 5 (Sample.callRequest tool args)
              Sample.ready) in
  call "echo" (Obj [("message", Str "hi")]) =
    Return {| Server._meta := {| Server.toolName := "echo"; Server.timestamp := 5;
                                 Server.success := true |};
              Server.content := Arr [Obj [("type", Str "text"); ("text", Str "hi")]] |} ∧
  call "nope" (Obj []) = Throw (McpError MethodNotFound "Unknown tool: nope").
Proof. cbv zeta. split; vm_compute; reflexivity. Qed.


(** * Further properties *)

(** ** The listing and the call of a tool *)

Section ToolFacts.
Context `{Sec : Security} {World : Type}.
Import Server.
Implicit Types (st : State World) (tool : Tool World).

Lemma foldl_set_distinct (tools0 : list (Tool World)) (ts : list (string * Tool World)) :
  NoDup (JsMap.keys ts ++ (name <$> tools0)) →
  foldl (λ ts tool, JsMap.set (name tool) tool ts) ts tools0 =
    ts ++ ((λ tool, (name tool, tool)) <$> tools0).
Proof.
  revert ts. induction tools0 as [|tool rest IH]; intros ts Hnd; cbn [foldl fmap list_fmap].
  - by rewrite app_nil_r.
  - assert (JsMap.set (name tool) tool ts = ts ++ [(name tool, tool)]) as Hset.
    { apply NoDup_app in Hnd as (_ & Hnotin & _).
      assert (name tool ∉ JsMap.keys ts) as Hfresh
        by (intros Hin; apply (Hnotin _ Hin); by left).
      clear -Hfresh. induction ts as [|[k t] ts IH]; [done |].
      cbn [JsMap.set]. unfold JsMap.keys in *. cbn in Hfresh.
      apply not_elem_of_cons in Hfresh as [Hne Hfresh].
      rewrite decide_False by done. by rewrite IH. }
    rewrite Hset, IH.
    + by rewrite <- app_assoc.
    + unfold JsMap.keys in *. rewrite fmap_app, <- app_assoc. done.
Qed.

(** X1. Tools registered under names that differ are listed in the order
    of their registration, each with its own name, description and JSON
    schema. *)
Theorem registerAll_lists_in_registration_order
    (tools0 : list (Tool World)) vs rl cm (w : World) :
  NoDup (name <$> tools0) →
  listed (tools (this (final (registerAll tools0
            {| this := constructed vs rl cm; world := w |})))) =
    (λ tool, {| Listed.name := name tool;
                Listed.description := description tool;
                Listed.inputSchema := jsonSchema (inputSchema tool) |}) <$> tools0.
Proof.
  intros Hnd.
  destruct (registerAll_tools tools0 {| this := constructed vs rl cm; world := w |})
    as (_ & -> & _).
  cbn [this constructed tools]. rewrite foldl_set_distinct by done.
  unfold listed, JsMap.values. cbn. rewrite <- !list_fmap_compose.
  by apply list_fmap_ext.
Qed.

(** X2. A dispatched call whose arguments the schema accepts calls the
    handler once, on what [parse] returned and not on the arguments as
    sent; when the handler returns, the call returns its content under a
    [_meta] that names the tool as requested, carries the time and says
    [success], and the world is as the handler left it. *)
Theorem callTool_returns_the_content_of_the_handler
    now request st toolName tool validatedArgs answer w :
  dispatched now request st toolName tool →
  parse (inputSchema tool) (prop "arguments" (params request)) = Return validatedArgs →
  handler tool validatedArgs (world st) = (Return answer, w) →
  let out := callToolHandler now request st in
  result out =
    Return {| _meta := {| toolName := toolName; timestamp := now; success := true |};
              content := ToolResult.content answer |} ∧
  world (final out) = w ∧
  trace out = upToParse request tool ++ [HandlerCall (name tool)] ∧
  tools (this (final out)) = tools (this st).
Proof.
  intros Hd Hparse Hanswer out. subst out.
  rewrite (callToolHandler_dispatched _ _ _ _ _ Hd), Hparse. cbn. rewrite Hanswer.
  unfold result, final, trace. cbn. done.
Qed.

(** X3. An admitted call that cannot be routed fails before the schema and
    the handler of any tool are touched: parameters that are no object and
    a name that is no non-empty string are [InvalidParams], a name under
    which no tool is registered (names are matched exactly) is
    [MethodNotFound] with that name in the message; the world is as it
    was and the trace holds the admission steps only. *)
Theorem callTool_unroutable_calls_fail_early now request st :
  Catalog.admitted now request st →
  (∀ toolName tool, ¬ dispatched now request st toolName tool) →
  let out := callToolHandler now request st in
  result out =
    Throw (if isObject (params request) then
             match nonEmptyString (prop "name" (params request)) with
             | Some toolName => McpError MethodNotFound ("Unknown tool: " +:+ toolName)
             | None => McpError InvalidParams "Missing or invalid tool name"
             end
           else McpError InvalidParams "Invalid request parameters") ∧
  world (final out) = world st ∧
  trace out = [ValidateMessageSize; UpdateActivity; CheckLimit (method request)].
Proof.
  intros [Hsize Hrate] Hnone out.
  assert (∃ error, out = (Throw error, admittedState now request st,
                          [ValidateMessageSize; UpdateActivity; CheckLimit (method request)]) ∧
                   error = if isObject (params request) then
                             match nonEmptyString (prop "name" (params request)) with
                             | Some toolName =>
                                 McpError MethodNotFound ("Unknown tool: " +:+ toolName)
                             | None => McpError InvalidParams "Missing or invalid tool name"
                             end
                           else McpError InvalidParams "Invalid request parameters")
    as (error & -> & ->); [| done].
  subst out. unfold callToolHandler, bind at 1.
  rewrite validateRequest_unfold, Hsize, Hrate.
  destruct (isObject (params request)) eqn:Hobj; [| by eexists]. cbn [negb].
  destruct (nonEmptyString _) as [toolName|] eqn:Hname; [| by eexists].
  unfold bind, gets. cbn [admittedState set_rateLimiter set_connectionMonitor this tools].
  destruct (JsMap.get toolName (tools (this st))) as [tool|] eqn:Hget; [| by eexists].
  destruct (Hnone toolName tool). by repeat split.
Qed.

End ToolFacts.

(** X2 on the sample server: the echo tool of the repository's test. *)
Lemma callTool_returns_the_content_sample :
  let request := Sample.callRequest "echo" (Obj [("message", Str "hi"); ("more", Num 1)]) in
  let out := Server.callToolHandler (Sec := Sample.sec) 5 request Sample.ready in
  Server.dispatched (Sec := Sample.sec) 5 request Sample.ready "echo" Sample.echo ∧
  result out =
    Return {| Server._meta := {| Server.toolName := "echo"; Server.timestamp := 5;
                                 Server.success := true |};
              Server.content := Sample.textContent "hi" |}.
Proof.
  intros request out.
  assert (Server.dispatched (Sec := Sample.sec) 5 request Sample.ready "echo" Sample.echo)
    as Hd by (repeat split; reflexivity).
  destruct (callTool_returns_the_content_of_the_handler
              (Sec := Sample.sec) 5 request Sample.ready "echo" Sample.echo
              (Obj [("message", Str "hi")])
              {| Server.ToolResult.content := Sample.textContent "hi" |} []
              Hd eq_refl eq_refl) as (Hresult & _).
  split; [exact Hd | exact Hresult].
Defined.

(** X1 on the three sample tools. *)
Lemma registerAll_lists_sample :
  NoDup (Server.name <$> [Sample.echo; Sample.jot; Sample.strict]) ∧
  Server.Listed.name <$> Server.listed (Server.tools (Server.this Sample.ready)) =
    ["echo"; "jot"; "strict"].
Proof.
  assert (NoDup (Server.name <$> [Sample.echo; Sample.jot; Sample.strict])) as Hnd.
  { apply (bool_decide_unpack _). vm_compute. exact I. }
  split; [exact Hnd |].
  unfold Sample.ready, Sample.fresh.
  rewrite (registerAll_lists_in_registration_order (Sec := Sample.sec)
             [Sample.echo; Sample.jot; Sample.strict] _ _ _ _ Hnd).
  reflexivity.
Defined.

(** X3 on the sample server: no tool is registered under ["Echo"]. *)
Lemma callTool_unroutable_sample :
  let request := Sample.callRequest "Echo" (Obj [("message", Str "hi")]) in
  Catalog.admitted (Sec := Sample.sec) 5 request Sample.ready ∧
  result (Server.callToolHandler (Sec := Sample.sec) 5 request Sample.ready) =
    Throw (McpError MethodNotFound "Unknown tool: Echo").
Proof.
  intros request.
  assert (Catalog.admitted (Sec := Sample.sec) 5 request Sample.ready) as Ha
    by (split; reflexivity).
  split; [exact Ha |].
  refine (proj1 (callTool_unroutable_calls_fail_early (Sec := Sample.sec)
                   5 request Sample.ready Ha _)).
  intros toolName tool (_ & _ & _ & Hname & Hget).
  injection Hname as <-. discriminate Hget.
Defined.

(** ** Prompts and resources *)

Section CatalogFacts.
Context `{Sec : Security} `{Eng : Engine} {World : Type} `{Col : !Catalog.Collaborators World}.
Import Server Catalog.
Implicit Types (st : State World) (request : Request) (now : Z).

Lemma validateRequest_admitted now request st :
  admitted now request st →
  validateRequest now request st =
    (Return tt, admittedState now request st,
     [ValidateMessageSize; UpdateActivity; CheckLimit (method request)]).
Proof. intros [Hsize Hrate]. by rewrite validateRequest_unfold, Hsize, Hrate. Qed.

Lemma bind_Throw {A B} (m : M (State World) A) (k : A → M (State World) B) st e :
  result (m st) = Throw e → bind m k st = (Throw e, final (m st), trace (m st)).
Proof.
  unfold bind, result, final, trace. destruct (m st) as [[[] s] t]; cbn; [done |].
  by intros [= ->].
Qed.

(** X4. A request that admission turns away ends each of the prompt and
    resource handlers there: the handler throws the error of
    [validateRequest] with its state and trace, and the prompt and resource
    collaborators have no part in the outcome. *)
Theorem catalog_handlers_stop_at_admission now request st e :
  result (validateRequest now request st) = Throw e →
  let turnedAway :=
    (Throw e, final (validateRequest now request st),
     trace (validateRequest now request st)) in
  listPromptsHandler now request st = turnedAway ∧
  getPromptHandler now request st = turnedAway ∧
  listResourcesHandler now request st = turnedAway ∧
  readResourceHandler now request st = turnedAway.
Proof.
  intros He turnedAway. subst turnedAway.
  unfold listPromptsHandler, getPromptHandler, listResourcesHandler, readResourceHandler.
  split_and!; by apply bind_Throw.
Qed.

Lemma readResourceHandler_admitted now request st :
  admitted now request st →
  readResourceHandler now request st =
    let steps := [ValidateMessageSize; UpdateActivity; CheckLimit (method request)] in
    let st1 := admittedState now request st in
    match nonEmptyString (prop "uri" (params request)) with
    | None => (Throw (McpError InvalidParams "Missing or invalid URI parameter"), st1, steps)
    | Some uri =>
        if String.prefix "obsidian-vault://" uri then
          (match (readVaultResource (vaults (this st)) uri (world st)).1 with
           | Return contents => Return (Obj [("contents", Arr [contents])])
           | Throw e => Throw e
           end,
           {| this := this st1;
              world := (readVaultResource (vaults (this st)) uri (world st)).2 |},
           steps)
        else
          (Throw (McpError InvalidParams
                    "Invalid URI format. Only vault resources are supported."),
           st1, steps)
    end.
Proof.
  intros Ha. unfold readResourceHandler, bind at 1.
  rewrite (validateRequest_admitted _ _ _ Ha). cbv zeta.
  destruct (nonEmptyString _) as [uri|]; [| done].
  destruct (String.prefix _ uri); [| done]. cbn [negb].
  unfold bind, gets, awaited, ret. cbn.
  by destruct (readVaultResource _ _ _) as [[contents|e] w].
Qed.

(** X5. An admitted read-resource request reaches the reader of vault
    resources only with a URI that is a string starting with
    [obsidian-vault://]; any other is [InvalidParams] and leaves the world
    as it was. What the reader returns is wrapped as the one element of
    [contents], and what it throws is thrown on as it is, of whatever kind. *)
Theorem readResource_guards_the_scheme now request st :
  admitted now request st →
  let out := readResourceHandler now request st in
  match nonEmptyString (prop "uri" (params request)) with
  | None =>
      result out = Throw (McpError InvalidParams "Missing or invalid URI parameter") ∧
      world (final out) = world st
  | Some uri =>
      if String.prefix "obsidian-vault://" uri then
        let answer := readVaultResource (vaults (this st)) uri (world st) in
        result out = match answer.1 with
                     | Return contents => Return (Obj [("contents", Arr [contents])])
                     | Throw e => Throw e
                     end ∧
        world (final out) = answer.2
      else
        result out =
          Throw (McpError InvalidParams
                   "Invalid URI format. Only vault resources are supported.") ∧
        world (final out) = world st
  end.
Proof.
  intros Ha out. subst out. rewrite (readResourceHandler_admitted _ _ _ Ha). cbv zeta.
  destruct (nonEmptyString _) as [uri|]; [| done].
  by destruct (String.prefix _ uri).
Qed.

Lemma prop_set key (v : Value) (props : list (string * Value)) :
  prop key (Obj (JsMap.set key v props)) = v.
Proof.
  unfold prop. induction props as [|[k x] props IH]; cbn [JsMap.set].
  - cbn. by case_decide.
  - destruct (decide (k = key)) as [Heq|Hne]; cbn.
    + by case_decide.
    + case_decide; [done |]. cbn.
      destruct (list_find _ (JsMap.set key v props)) as [[i [k' x']]|]; cbn in *; done.
Qed.

Lemma prop_set_ne key other (v : Value) (props : list (string * Value)) :
  key ≠ other → prop other (Obj (JsMap.set key v props)) = prop other (Obj props).
Proof.
  intros Hne. unfold prop. induction props as [|[k x] props IH]; cbn [JsMap.set].
  - cbn. by case_decide.
  - destruct (decide (k = key)) as [Heq|Hk]; cbn.
    + subst k. by repeat case_decide.
    + case_decide; [done |]. cbn.
      destruct (list_find _ (JsMap.set key v props)) as [[i [k' x']]|];
        destruct (list_find _ props) as [[j [k'' x'']]|]; cbn in *; done.
Qed.

Lemma getPromptHandler_admitted now request st name :
  admitted now request st →
  isObject (params request) = true →
  nonEmptyString (prop "name" (params request)) = Some name →
  getPromptHandler now request st =
    let answer :=
      getPrompt name (vaults (this st)) (prop "arguments" (params request)) (world st) in
    (match answer.1 with
     | Return rendered =>
         Return (withMeta rendered (Obj [("promptName", Str name); ("timestamp", Num now)]))
     | Throw e => Throw e
     end,
     {| this := this (admittedState now request st); world := answer.2 |},
     [ValidateMessageSize; UpdateActivity; CheckLimit (method request)]).
Proof.
  intros Ha Hobj Hname. unfold getPromptHandler, bind at 1.
  rewrite (validateRequest_admitted _ _ _ Ha). cbv zeta.
  destruct (params request) eqn:Hparams; try discriminate Hobj;
    rewrite Hname; unfold bind, gets, awaited, ret; cbn;
    by destruct (getPrompt _ _ _ _) as [[rendered|e] w].
Qed.

(** X6. An admitted get-prompt request with a name that is a non-empty
    string answers with the properties of what the renderer returned,
    except [_meta]: that one always names the prompt and the time, also
    when the renderer returned a [_meta] of its own. An error of the
    renderer is thrown on as it is. *)
Theorem getPrompt_meta_is_the_dispatchers now request st name :
  admitted now request st →
  isObject (params request) = true →
  nonEmptyString (prop "name" (params request)) = Some name →
  let out := getPromptHandler now request st in
  let answer :=
    getPrompt name (vaults (this st)) (prop "arguments" (params request)) (world st) in
  match answer.1 with
  | Return rendered =>
      ∃ response,
        result out = Return response ∧
        prop "_meta" response = Obj [("promptName", Str name); ("timestamp", Num now)] ∧
        ∀ key, key ≠ "_meta" → prop key response = prop key (Obj rendered)
  | Throw e => result out = Throw e
  end.
Proof.
  intros Ha Hobj Hname out answer. subst out.
  rewrite (getPromptHandler_admitted _ _ _ _ Ha Hobj Hname). cbv zeta. fold answer.
  unfold result. cbn [fst]. destruct answer.1 as [rendered|e]; [| done].
  eexists. split_and!; [done | apply prop_set | intros key Hkey; by apply prop_set_ne].
Qed.

End CatalogFacts.

(** X4 on the sample server, whose limiter turns the third call of a minute away. *)
Lemma catalog_handlers_stop_sample :
  let request := Fixture.request "resources/read" (Obj [("uri", Str "obsidian-vault://v1")]) in
  let validate now st := final (Server.validateRequest (Sec := Sample.sec) now request st) in
  let st := validate 20%Z (validate 10%Z Sample.ready) in
  let e := McpError InvalidRequest "Rate limit exceeded" in
  result (Server.validateRequest (Sec := Sample.sec) 30 request st) = Throw e ∧
  result (Catalog.readResourceHandler (Sec := Sample.sec) (Col := Fixture.collaborators)
            30 request st) = Throw e.
Proof.
  intros request validate st e.
  assert (result (Server.validateRequest (Sec := Sample.sec) 30 request st) = Throw e)
    as He by (vm_compute; reflexivity).
  split; [exact He |].
  destruct (catalog_handlers_stop_at_admission (Sec := Sample.sec) (Eng := Fixture.engine)
              (Col := Fixture.collaborators) 30 request st e He) as (_ & _ & _ & ->).
  reflexivity.
Defined.

(** X5 on the sample server: the vault [v1] is read. *)
Lemma readResource_sample :
  let request := Fixture.request "resources/read" (Obj [("uri", Str "obsidian-vault://v1")]) in
  let out := Catalog.readResourceHandler (Sec := Sample.sec) (Col := Fixture.collaborators)
               5 request Sample.ready in
  Catalog.admitted (Sec := Sample.sec) 5 request Sample.ready ∧
  result out =
    Return (Obj [("contents", Arr [Obj [("uri", Str "obsidian-vault://v1"); ("name", Str "v1")]])]) ∧
  Server.world (final out) = ["read v1"].
Proof.
  intros request out.
  assert (Catalog.admitted (Sec := Sample.sec) 5 request Sample.ready) as Ha
    by (split; reflexivity).
  split; [exact Ha |].
  exact (readResource_guards_the_scheme (Sec := Sample.sec) (Col := Fixture.collaborators)
           5 request Sample.ready Ha).
Defined.

(** X6 on the sample server: the renderer of [list-vaults] answers with a
    [_meta] of its own, which the response does not carry. *)
Lemma getPrompt_meta_sample :
  let request := Fixture.request "prompts/get" (Obj [("name", Str "list-vaults")]) in
  let out := Catalog.getPromptHandler (Sec := Sample.sec) (Eng := Fixture.engine)
               (Col := Fixture.collaborators) 5 request Sample.ready in
  Catalog.admitted (Sec := Sample.sec) 5 request Sample.ready ∧
  isObject (params request) = true ∧
  nonEmptyString (prop "name" (params request)) = Some "list-vaults" ∧
  ∃ response,
    result out = Return response ∧
    prop "_meta" response = Obj [("promptName", Str "list-vaults"); ("timestamp", Num 5)] ∧
    prop "messages" response = Arr [Str "v1"].
Proof.
  intros request out.
  assert (Catalog.admitted (Sec := Sample.sec) 5 request Sample.ready) as Ha
    by (split; reflexivity).
  split_and!; [exact Ha | reflexivity | reflexivity |].
  destruct (getPrompt_meta_is_the_dispatchers (Sec := Sample.sec) (Eng := Fixture.engine)
              (Col := Fixture.collaborators) 5 request Sample.ready "list-vaults"
              Ha eq_refl eq_refl) as (response & Hresult & Hmeta & Hother).
  exists response. split_and!; [exact Hresult | exact Hmeta |].
  rewrite (Hother "messages") by discriminate. reflexivity.
Defined.

(** ** The vault table of the constructor *)

Section JsMapFoldFacts.
Context {A V : Type} (key : A → string) (val : A → V).

Lemma set_fresh (k : string) (v : V) (m : list (string * V)) :
  k ∉ JsMap.keys m → JsMap.set k v m = m ++ [(k, v)].
Proof.
  unfold JsMap.keys. induction m as [|[k' v'] m IH]; [done |].
  cbn. intros [Hne Hfresh]%not_elem_of_cons.
  rewrite decide_False by done. by rewrite IH.
Qed.

Lemma foldl_set_fresh (l : list A) (m : list (string * V)) :
  NoDup (JsMap.keys m ++ (key <$> l)) →
  foldl (λ m a, JsMap.set (key a) (val a) m) m l = m ++ ((λ a, (key a, val a)) <$> l).
Proof.
  revert m. induction l as [|a l IH]; intros m Hnd; cbn [foldl fmap list_fmap].
  - by rewrite app_nil_r.
  - rewrite set_fresh.
    + rewrite IH; [by rewrite <- app_assoc |].
      unfold JsMap.keys in *. by rewrite fmap_app, <- app_assoc.
    + apply NoDup_app in Hnd as (_ & Hnotin & _).
      intros Hin. apply (Hnotin _ Hin). by left.
Qed.

Lemma foldl_set_NoDup (l : list A) (m : list (string * V)) :
  NoDup (JsMap.keys m) → NoDup (JsMap.keys (foldl (λ m a, JsMap.set (key a) (val a) m) m l)).
Proof.
  revert m. induction l as [|a l IH]; intros m Hnd; [done |].
  cbn [foldl]. by apply IH, keys_set_NoDup.
Qed.

(** Under a key, the fold leaves the value of the last element with that key. *)
Lemma foldl_set_get (l : list A) (m : list (string * V)) (k : string) :
  JsMap.get k (foldl (λ m a, JsMap.set (key a) (val a) m) m l) =
    match last (filter (λ a, key a = k) l) with
    | Some a => Some (val a)
    | None => JsMap.get k m
    end.
Proof.
  revert m. induction l as [|a l IH]; intros m; [done |].
  cbn [foldl]. rewrite IH. rewrite filter_cons.
  destruct (decide (key a = k)) as [<-|Hne].
  - rewrite last_cons. destruct (last (filter _ l)); [done |]. by rewrite get_set_eq.
  - destruct (last (filter _ l)); [done |]. by rewrite get_set_ne.
Qed.

End JsMapFoldFacts.

Section VaultTableFacts.
Context `{Host : Cli.Node} `{Protocol : Sdk}.
Import Lifecycle.

Lemma resolveVault_Return config :
  initialized config → resolveVault config = Return (resolvedPathOf config).
Proof. unfold initialized, resolveVault, resolvedPathOf. cbv zeta. by intros ->. Qed.

Lemma resolveVault_Throw config :
  ¬ initialized config → ∃ text, resolveVault config = Throw (McpError InvalidRequest text).
Proof.
  unfold initialized, resolveVault, resolvedPathOf. cbv zeta.
  destruct (Cli.fs_stat _) as [[]|e]; [done | | ]; intros _.
  - cbn. by eexists.
  - cbn [isENOENT]. case_bool_decide; by eexists.
Qed.

Lemma forEachConfig_Return vaults configs :
  Forall initialized configs →
  forEachConfig vaults configs =
    Return (foldl (λ m c, JsMap.set (Cli.name c) (resolvedPathOf c) m) vaults configs).
Proof.
  revert vaults. induction configs as [|config rest IH]; intros vaults Hall; [done |].
  apply Forall_cons in Hall as [Hc Hrest]. cbn [forEachConfig foldl].
  rewrite (resolveVault_Return _ Hc). by apply IH.
Qed.

Lemma forEachConfig_Throw vaults configs :
  ¬ Forall initialized configs →
  ∃ text, forEachConfig vaults configs = Throw (McpError InvalidRequest text).
Proof.
  revert vaults. induction configs as [|config rest IH]; intros vaults Hnot.
  - destruct Hnot. apply Forall_nil_2.
  - cbn [forEachConfig].
    destruct (Cli.fs_stat (Cli.path_join (resolvedPathOf config) ".obsidian")) as [[]|e] eqn:Hstat.
    + rewrite (resolveVault_Return _ Hstat). apply IH. intros Hrest. apply Hnot.
      by apply Forall_cons.
    + destruct (resolveVault_Throw config) as [text ->]; [| by eexists].
      unfold initialized. by rewrite Hstat.
    + destruct (resolveVault_Throw config) as [text ->]; [| by eexists].
      unfold initialized. by rewrite Hstat.
Qed.

Lemma initialized_dec config : Decision (initialized config).
Proof.
  unfold initialized. destruct (Cli.fs_stat _) as [[]|e];
    [left; done | right; done | right; done].
Defined.

Lemma constructorVaults_Return (vaultConfigs : list Cli.VaultConfig) vaults :
  constructorVaults vaultConfigs = Return vaults →
  vaultConfigs ≠ [] ∧ Forall initialized vaultConfigs ∧
  vaults = foldl (λ m c, JsMap.set (Cli.name c) (resolvedPathOf c) m) [] vaultConfigs.
Proof.
  unfold constructorVaults. destruct vaultConfigs as [|config rest]; [done |].
  rewrite decide_False by done.
  destruct (@Forall_dec _ initialized initialized_dec (config :: rest)) as [Hall|Hnot].
  - rewrite (forEachConfig_Return _ _ Hall). by intros [= <-].
  - by destruct (forEachConfig_Throw [] _ Hnot) as [text ->].
Qed.

(** X7. The vault table is built exactly when there is at least one
    configuration and every vault has an [.obsidian] that is a directory,
    looked up under the resolved, home-expanded path. Every other case is
    an [McpError] of code [InvalidRequest], also an [.obsidian] that is a
    file and a failure of the file system other than a missing entry. *)
Theorem constructorVaults_accepts_initialized_vaults (vaultConfigs : list Cli.VaultConfig) :
  ((∃ vaults, constructorVaults vaultConfigs = Return vaults) ↔
   vaultConfigs ≠ [] ∧ Forall initialized vaultConfigs) ∧
  (∀ e, constructorVaults vaultConfigs = Throw e →
        ∃ text, e = McpError InvalidRequest text).
Proof.
  unfold constructorVaults.
  destruct vaultConfigs as [|config rest].
  { split; [| intros e [= <-]; by eexists].
    split; [by intros [? [=]] | by intros [[] _]]. }
  rewrite decide_False by done.
  destruct (@Forall_dec _ initialized initialized_dec (config :: rest)) as [Hall|Hnot].
  - rewrite (forEachConfig_Return _ _ Hall). split; [| by intros e [=]].
    split; [done | by eexists].
  - destruct (forEachConfig_Throw [] _ Hnot) as [text ->].
    split; [| intros e [= <-]; by eexists].
    split; [by intros [? [=]] | by intros [_ ?]].
Qed.

(** X8. The table of a constructor that succeeds has every name once;
    under a name it holds the resolved path of the last configuration with
    that name, so that of two vaults with one name the first is lost. With
    names that differ the table is the list of the configurations, name
    and resolved path, in their order. *)
Theorem constructorVaults_table (vaultConfigs : list Cli.VaultConfig) vaults :
  constructorVaults vaultConfigs = Return vaults →
  NoDup (JsMap.keys vaults) ∧
  (∀ name, JsMap.get name vaults =
           resolvedPathOf <$> last (filter (λ c, Cli.name c = name) vaultConfigs)) ∧
  (NoDup (Cli.name <$> vaultConfigs) →
   vaults = (λ c, (Cli.name c, resolvedPathOf c)) <$> vaultConfigs).
Proof.
  intros (_ & _ & ->)%constructorVaults_Return. split_and!.
  - apply foldl_set_NoDup, NoDup_nil_2.
  - intros name. rewrite foldl_set_get. by destruct (last _).
  - intros Hnd. by rewrite foldl_set_fresh.
Qed.

End VaultTableFacts.

(** X7 and X8 on the sample disk: three configurations, two of them under
    one name. *)
Lemma constructorVaults_table_sample :
  let configs := [{| Cli.name := "work"; Cli.path := "/vaults/v1" |};
                  {| Cli.name := "home"; Cli.path := "/vaults/v2" |};
                  {| Cli.name := "work"; Cli.path := "/vaults/v3" |}] in
  let built := Lifecycle.constructorVaults
                 (Host := Sample.node (Sample.diskOf (Sample.vaultDirs 3))) (Protocol := Fixture.sdk)
                 configs in
  built = Return [("work", "/vaults/v3"); ("home", "/vaults/v2")] ∧
  JsMap.get "work" [("work", "/vaults/v3"); ("home", "/vaults/v2")] = Some "/vaults/v3".
Proof.
  intros configs built.
  assert (built = Return [("work", "/vaults/v3"); ("home", "/vaults/v2")]) as Hbuilt
    by (vm_compute; reflexivity).
  split; [exact Hbuilt |].
  destruct (constructorVaults_table
              (Host := Sample.node (Sample.diskOf (Sample.vaultDirs 3))) (Protocol := Fixture.sdk)
              configs _ Hbuilt) as (_ & Hget & _).
  rewrite (Hget "work"). reflexivity.
Defined.

(** An [.obsidian] that is a file: the error of the [try] block is caught
    and reported as an access error, with the message of the first inside. *)
Example constructorVaults_obsidian_file :
  Lifecycle.constructorVaults
    (Host := Sample.node {| Sample.directories := ["/v"]; Sample.files := ["/v/.obsidian"] |})
    (Protocol := Fixture.sdk) [{| Cli.name := "v"; Cli.path := "/v" |}]
  = Throw (McpError InvalidRequest
             ("Error accessing vault at /v: MCP error -32600: " +:+
              "Invalid Obsidian vault at /v: .obsidian exists but is not a directory")).
Proof. vm_compute. reflexivity. Qed.

(** ** From [main] to the constructor *)

Section HandoverFacts.
Context `{Host : Cli.Node} `{Utils : Cli.PathUtils} `{Protocol : Sdk}.
Import Cli Lifecycle.

Lemma main_StartServer (vaultArgs : list string) uniqueVaults :
  outcome (main vaultArgs) = StartServer uniqueVaults →
  length vaultArgs ≠ 0 ∧ length vaultArgs ≤ MAX_VAULTS ∧
  forallb passes vaultArgs = true ∧
  checkPathOverlap (absolutePathOf <$> vaultArgs) = None ∧
  uniqueVaultsOf ((λ vaultPath, {| name := sanitizeVaultName (path_basename vaultPath);
                                   path := vaultPath |}) <$> (absolutePathOf <$> vaultArgs))
    = Some uniqueVaults.
Proof.
  destruct (decide (length vaultArgs = 0)) as [Hz|Hnz].
  { unfold main. by rewrite decide_True. }
  rewrite main_nonempty by done. cbv zeta.
  pose proof (rejectionsOf_nil vaultArgs) as Hnil.
  destruct (rejectionsOf _ _); [| done].
  case_decide as Hcap; [done |]. cbn.
  assert (forallb passes vaultArgs = true) as Hall by by apply Hnil.
  rewrite (acceptedOf_passes _ Hall).
  destruct (checkPathOverlap _); [done |].
  destruct (uniqueVaultsOf _) as [named|]; [| done].
  intros [= <-]. split_and!; [done | lia | done..].
Qed.

Lemma path_of_named (paths : list string) :
  path <$> ((λ vaultPath, {| name := sanitizeVaultName (path_basename vaultPath);
                             path := vaultPath |}) <$> paths) = paths.
Proof. induction paths as [|p paths IH]; [done |]. cbn. by rewrite IH. Qed.

(** X9. When [main] gets as far as constructing the server, there are
    between one and [MAX_VAULTS] vaults, one per argument and in the order
    of the arguments, each under the absolute path of its argument; every
    argument has passed its validation, the overlap check has passed on
    the absolute paths, and the names of the vaults differ. *)
Theorem main_starts_the_server_on_validated_vaults (vaultArgs : list string) uniqueVaults :
  outcome (main vaultArgs) = StartServer uniqueVaults →
  1 ≤ length vaultArgs ≤ MAX_VAULTS ∧
  path <$> uniqueVaults = absolutePathOf <$> vaultArgs ∧
  NoDup (name <$> uniqueVaults) ∧
  Forall (λ p, passes p = true ∧
               fs_stat (absolutePathOf p) = StatOk true ∧
               fs_stat (path_join (absolutePathOf p) ".obsidian") = StatOk true)
         vaultArgs ∧
  checkPathOverlap (absolutePathOf <$> vaultArgs) = None.
Proof.
  intros (Hnz & Hcap & Hall & Hover & Hnames)%main_StartServer.
  destruct (foldl_forEachVault_names
              ((λ vaultPath, {| name := sanitizeVaultName (path_basename vaultPath);
                                path := vaultPath |}) <$> (absolutePathOf <$> vaultArgs)))
    as (named & Hfold & Hpaths & Hnodup & _).
  unfold uniqueVaultsOf in Hnames. rewrite Hfold in Hnames. injection Hnames as <-.
  split_and!; [lia | lia | | done | | done].
  - by rewrite Hpaths, path_of_named.
  - apply Forall_forall. intros p Hp.
    assert (passes p = true) as Hpass.
    { rewrite forallb_forall in Hall. apply Hall. by apply list_elem_of_In. }
    destruct (validateVaultPath_passes p Hpass) as (_ & _ & _ & Hdir & Hconfig). done.
Qed.

(** X10. The vaults with which [main] constructs the server are accepted
    by the constructor, which looks at each [.obsidian] a second time: when
    the absolute paths of the arguments are fixed points of the
    constructor's home expansion and of [path.resolve], the vault table is
    the list of the vaults of [main], name and path, in their order. *)
Theorem main_vaults_pass_the_constructor (vaultArgs : list string) uniqueVaults :
  Forall (λ p, expandHome (absolutePathOf p) = absolutePathOf p ∧
               path_resolve (absolutePathOf p) = absolutePathOf p) vaultArgs →
  outcome (main vaultArgs) = StartServer uniqueVaults →
  constructorVaults uniqueVaults = Return ((λ v, (name v, path v)) <$> uniqueVaults).
Proof.
  intros Hfixed (Hnz & Hcap & Hall & Hover & Hnames)%main_StartServer.
  destruct (foldl_forEachVault_names
              ((λ vaultPath, {| name := sanitizeVaultName (path_basename vaultPath);
                                path := vaultPath |}) <$> (absolutePathOf <$> vaultArgs)))
    as (named & Hfold & Hpaths & Hnodup & _).
  unfold uniqueVaultsOf in Hnames. rewrite Hfold in Hnames. injection Hnames as <-.
  rewrite path_of_named in Hpaths.
  assert (Forall (λ v, resolvedPathOf v = path v ∧ initialized v) named) as Hvaults.
  { apply Forall_forall. intros v Hv.
    assert (path v ∈ path <$> named) as Hin by (by apply list_elem_of_fmap_2).
    rewrite Hpaths in Hin. apply list_elem_of_fmap in Hin as (p & Hpath & Hp).
    rewrite Forall_forall in Hfixed. destruct (Hfixed p Hp) as [Hexpand Hresolve].
    assert (passes p = true) as Hpass.
    { rewrite forallb_forall in Hall. apply Hall. by apply list_elem_of_In. }
    destruct (validateVaultPath_passes p Hpass) as (_ & _ & _ & _ & Hconfig).
    assert (resolvedPathOf v = path v) as Hres.
    { unfold resolvedPathOf. by rewrite Hpath, Hexpand, Hresolve. }
    split; [done |]. unfold initialized. by rewrite Hres, Hpath. }
  unfold constructorVaults.
  assert (length named ≠ 0) as Hlen.
  { apply (f_equal length) in Hpaths. rewrite !length_fmap in Hpaths. lia. }
  rewrite decide_False by done.
  rewrite forEachConfig_Return by (eapply Forall_impl; [exact Hvaults | by intros ? [_ ?]]).
  rewrite foldl_set_fresh by done. cbn [app]. f_equal.
  apply Forall_fmap_ext_1. eapply Forall_impl; [exact Hvaults |].
  intros v [-> _]. done.
Qed.

End HandoverFacts.

(** ** [start], [stop] and [shutdown] *)

Section LifecycleFacts.
Import Lifecycle.

Lemma stop_unfold a h :
  monitorStop a = None →
  ∃ steps,
    stop a h = (match serverClose a with Some e => Throw e | None => Return tt end,
                unset, steps) ∧
    calls steps = [MonitorStop] ++ owed h ++ [ServerClose].
Proof.
  intros Hmonitor. unfold stop, attempt, closeTransport, closeHttpServer, owed, unset.
  rewrite Hmonitor. destruct h as [[t|] [|]]; cbn;
    destruct (transportClose a), (httpServerClose a), (serverClose a); cbn;
    eexists; (split; [reflexivity |]); try destruct t; reflexivity.
Qed.

(** X11. When the connection monitor stops without throwing, [stop] closes
    the transport that is set, then the HTTP listener that is set, then the
    protocol server, in this order and each once, whether or not the first
    two closes fail. Both fields are unset afterwards, and [stop] throws
    exactly what [server.close] throws. *)
Theorem stop_closes_what_is_set_and_unsets_it a h :
  monitorStop a = None →
  ∀ r h' steps, stop a h = (r, h', steps) →
    calls steps = [MonitorStop] ++ owed h ++ [ServerClose] ∧
    h' = unset ∧
    r = match serverClose a with Some e => Throw e | None => Return tt end.
Proof.
  intros Hmonitor r h' steps Hstop.
  destruct (stop_unfold a h Hmonitor) as (steps' & Heq & Hcalls).
  rewrite Heq in Hstop. by injection Hstop as <- <- <-.
Qed.

Lemma stop_monitor_throws a h e :
  monitorStop a = Some e → stop a h = (Throw e, h, [MonitorStop]).
Proof. intros Hmonitor. unfold stop, attempt. by rewrite Hmonitor. Qed.

(** X12. A second [stop] after one that got past the connection monitor
    closes neither a transport nor a listener again: it stops the monitor
    and closes the protocol server a second time, nothing else. *)
Theorem stop_twice_closes_the_server_twice a a' h r h' steps :
  monitorStop a = None → monitorStop a' = None →
  stop a h = (r, h', steps) →
  ∃ r' steps', stop a' h' = (r', unset, steps') ∧ calls steps' = [MonitorStop; ServerClose].
Proof.
  intros Hmonitor Hmonitor' Hstop.
  destruct (stop_unfold a h Hmonitor) as (s & Heq & _).
  rewrite Heq in Hstop. injection Hstop as _ <- _.
  destruct (stop_unfold a' unset Hmonitor') as (s' & Heq' & Hcalls').
  eexists _, s'. split; [exact Heq' | exact Hcalls'].
Qed.

Lemma start_Throw a mode h e h' steps :
  start a mode h = (Throw e, h', steps) → h' = h.
Proof.
  unfold start, attempt. destruct mode, (connect a), (listen a); by intros [= <- <- <-].
Qed.

(** X13. A [start] that throws leaves both fields as they were. For the
    HTTP mode this includes the case where [connect] has succeeded and
    [listen] fails, which is logged exactly when the failure is an
    ["error"] event of the listener: the transport is connected and no
    field refers to it. A following [stop] on a server without earlier
    transport makes no call of [close] on that transport; of its calls
    only [server.close], made whenever the connection monitor has stopped
    without throwing, is on the server the transport is connected to. *)
Theorem start_failure_sets_no_field a mode h e h' steps :
  start a mode h = (Throw e, h', steps) →
  h' = h ∧
  (mode = Argv.http → connect a = None →
   calls steps = [Connect HttpTransport; Listen] ∧
   (Logged "HTTP server error:" ∈ steps ↔ listen a = ListenFails e) ∧
   ∀ a' r h'' steps',
     activeTransport h = None → stop a' h' = (r, h'', steps') →
     (∀ t, TransportClose t ∉ steps') ∧
     (monitorStop a' = None → ServerClose ∈ steps')).
Proof.
  intros Hstart. rewrite (start_Throw _ _ _ _ _ _ Hstart).
  split; [done |]. intros -> Hconnect.
  unfold start, attempt in Hstart. rewrite Hconnect in Hstart.
  assert (calls steps = [Connect HttpTransport; Listen] ∧
          (Logged "HTTP server error:" ∈ steps ↔ listen a = ListenFails e)) as [Hcalls Hlog].
  { destruct (listen a) as [|e'|e']; [done | |]; injection Hstart as <- _ <-.
    - split; [done |]. split; [| done]. intros Hin.
      repeat (apply elem_of_cons in Hin as [[=]|Hin]). by apply elem_of_nil in Hin.
    - split; [done |]. split; [done |]. intros _. set_solver. }
  split_and!; [done.. |].
  intros a' r h'' steps' Hnone. unfold stop, attempt, closeTransport, closeHttpServer.
  rewrite Hnone.
  destruct (monitorStop a'), (httpServer h), (httpServerClose a'), (serverClose a'); cbn;
    intros [= <- <- <-];
    (split;
     [ intros transport Hin;
       repeat (apply elem_of_cons in Hin as [[=]|Hin]); by apply elem_of_nil in Hin
     | intros Hmon; try discriminate Hmon; set_solver ]).
Qed.

(** X14. [stop] after a successful [start] on a fresh server closes what
    this [start] has opened: the transport of the mode, for HTTP then the
    listener, and then the protocol server; the fields are unset again. *)
Theorem start_then_stop_closes_what_start_opened a mode h steps a' :
  start a mode unset = (Return tt, h, steps) →
  monitorStop a' = None →
  ∃ r steps',
    stop a' h = (r, unset, steps') ∧
    calls steps' = [MonitorStop] ++ opened mode ++ [ServerClose].
Proof.
  intros Hstart Hmonitor.
  destruct (stop_unfold a' h Hmonitor) as (s & Heq & Hcalls).
  eexists _, s. split; [exact Heq |]. rewrite Hcalls. do 2 f_equal.
  unfold start, attempt in Hstart.
  destruct mode, (connect a), (listen a); try done; by injection Hstart as <- _.
Qed.

(** X15. The exit status of [shutdown] is 0 exactly when the connection
    monitor and the protocol server close without throwing; a failure to
    close the transport or the HTTP listener does not change it. A call
    while a shutdown is under way does nothing. *)
Theorem shutdown_exit_status a h :
  (∃ h' steps status,
     shutdown a false h = (true, h', steps, Some status) ∧
     (status = 0%Z ↔ monitorStop a = None ∧ serverClose a = None) ∧
     (status ≠ 0%Z → status = 1%Z)) ∧
  shutdown a true h = (true, h, [], None).
Proof.
  split; [| done]. unfold shutdown.
  destruct (monitorStop a) as [e|] eqn:Hmonitor.
  - rewrite (stop_monitor_throws a h e Hmonitor).
    eexists _, _, _. split; [reflexivity |]. split; [| done].
    split; [done | by intros [? _]].
  - destruct (stop_unfold a h Hmonitor) as (s & -> & _).
    destruct (serverClose a); eexists _, _, _; (split; [reflexivity |]);
      (split; [| done]); (split; [done | by intros [_ ?]]) || done.
Qed.

End LifecycleFacts.

(** The lifecycle on given answers: every call returns, or both closes of
    [stop] before [server.close] fail. *)
Lemma stop_closes_what_is_set_sample :
  let a := {| Lifecycle.connect := None; Lifecycle.listen := Lifecycle.Listens;
              Lifecycle.monitorStop := None;
              Lifecycle.transportClose := Some (OtherError "EPIPE");
              Lifecycle.httpServerClose := Some (OtherError "ERR_SERVER_NOT_RUNNING");
              Lifecycle.serverClose := None |} in
  let h := {| Lifecycle.activeTransport := Some Lifecycle.HttpTransport;
              Lifecycle.httpServer := true |} in
  Lifecycle.monitorStop a = None ∧
  Lifecycle.calls (Lifecycle.stop a h).2
  = [Lifecycle.MonitorStop; Lifecycle.TransportClose Lifecycle.HttpTransport;
     Lifecycle.HttpServerClose; Lifecycle.ServerClose] ∧
  (Lifecycle.stop a h).1 = (Return tt, Lifecycle.unset).
Proof.
  intros a h. split; [reflexivity |].
  destruct (stop_closes_what_is_set_and_unsets_it a h eq_refl
              (Lifecycle.stop a h).1.1 (Lifecycle.stop a h).1.2 (Lifecycle.stop a h).2 eq_refl)
    as (Hcalls & Hunset & Hr).
  split; [exact Hcalls |]. vm_compute. reflexivity.
Defined.

Lemma stop_twice_sample :
  let a := {| Lifecycle.connect := None; Lifecycle.listen := Lifecycle.Listens;
              Lifecycle.monitorStop := None; Lifecycle.transportClose := None;
              Lifecycle.httpServerClose := None; Lifecycle.serverClose := None |} in
  let h := {| Lifecycle.activeTransport := Some Lifecycle.StdioTransport;
              Lifecycle.httpServer := false |} in
  ∃ r' steps',
    Lifecycle.stop a (Lifecycle.stop a h).1.2 = (r', Lifecycle.unset, steps') ∧
    Lifecycle.calls steps' = [Lifecycle.MonitorStop; Lifecycle.ServerClose].
Proof.
  intros a h.
  exact (stop_twice_closes_the_server_twice a a h
           (Lifecycle.stop a h).1.1 (Lifecycle.stop a h).1.2 (Lifecycle.stop a h).2
           eq_refl eq_refl eq_refl).
Defined.

Lemma start_failure_sample :
  let a := {| Lifecycle.connect := None;
              Lifecycle.listen := Lifecycle.ListenFails (OtherError "EADDRINUSE");
              Lifecycle.monitorStop := None; Lifecycle.transportClose := None;
              Lifecycle.httpServerClose := None; Lifecycle.serverClose := None |} in
  Lifecycle.start a Argv.http Lifecycle.unset
  = (Throw (OtherError "EADDRINUSE"), Lifecycle.unset,
     [Lifecycle.Connect Lifecycle.HttpTransport; Lifecycle.Listen;
      Lifecycle.Logged "HTTP server error:"]) ∧
  (Lifecycle.stop a Lifecycle.unset).2
  = [Lifecycle.MonitorStop; Lifecycle.ServerClose;
     Lifecycle.Logged "Obsidian MCP Server stopped"] ∧
  (∀ t, Lifecycle.TransportClose t ∉ (Lifecycle.stop a Lifecycle.unset).2) ∧
  Lifecycle.ServerClose ∈ (Lifecycle.stop a Lifecycle.unset).2.
Proof.
  intros a.
  assert (Lifecycle.start a Argv.http Lifecycle.unset
          = (Throw (OtherError "EADDRINUSE"), Lifecycle.unset,
             [Lifecycle.Connect Lifecycle.HttpTransport; Lifecycle.Listen;
              Lifecycle.Logged "HTTP server error:"])) as Hstart
    by reflexivity.
  split; [exact Hstart |]. split; [reflexivity |].
  destruct (start_failure_sets_no_field a Argv.http Lifecycle.unset _ _ _ Hstart)
    as (_ & Hleak).
  destruct (Hleak eq_refl eq_refl) as (_ & _ & Hstop).
  destruct (Hstop a (Lifecycle.stop a Lifecycle.unset).1.1 (Lifecycle.stop a Lifecycle.unset).1.2
              (Lifecycle.stop a Lifecycle.unset).2 eq_refl eq_refl) as [Hnone Hclose].
  split; [exact Hnone | exact (Hclose eq_refl)].
Defined.

Lemma start_then_stop_sample :
  let a := {| Lifecycle.connect := None; Lifecycle.listen := Lifecycle.Listens;
              Lifecycle.monitorStop := None; Lifecycle.transportClose := None;
              Lifecycle.httpServerClose := None; Lifecycle.serverClose := None |} in
  ∃ r steps',
    Lifecycle.stop a (Lifecycle.start a Argv.http Lifecycle.unset).1.2
    = (r, Lifecycle.unset, steps') ∧
    Lifecycle.calls steps'
    = [Lifecycle.MonitorStop; Lifecycle.TransportClose Lifecycle.HttpTransport;
       Lifecycle.HttpServerClose; Lifecycle.ServerClose].
Proof.
  intros a.
  exact (start_then_stop_closes_what_start_opened a Argv.http
           (Lifecycle.start a Argv.http Lifecycle.unset).1.2
           (Lifecycle.start a Argv.http Lifecycle.unset).2 a eq_refl eq_refl).
Defined.

(** The handover on the sample disk: two initialized vaults with the same
    last segment. *)
Lemma main_starts_the_server_sample :
  let vaultArgs := ["/x/notes"; "/y/notes"] in
  let host := Sample.node (Sample.diskOf vaultArgs) in
  ∃ uniqueVaults,
    Cli.outcome (Cli.main (Host := host) (Utils := Sample.pathUtils) vaultArgs)
    = Cli.StartServer uniqueVaults ∧
    Cli.path <$> uniqueVaults = Cli.absolutePathOf (Host := host) <$> vaultArgs ∧
    NoDup (Cli.name <$> uniqueVaults).
Proof.
  intros vaultArgs host.
  exists [{| Cli.name := "notes"; Cli.path := "/x/notes" |};
          {| Cli.name := "notes-1"; Cli.path := "/y/notes" |}].
  assert (Cli.outcome (Cli.main (Host := host) (Utils := Sample.pathUtils) vaultArgs)
          = Cli.StartServer [{| Cli.name := "notes"; Cli.path := "/x/notes" |};
                             {| Cli.name := "notes-1"; Cli.path := "/y/notes" |}]) as Hmain
    by (vm_compute; reflexivity).
  split; [exact Hmain |].
  destruct (main_starts_the_server_on_validated_vaults
              (Host := host) (Utils := Sample.pathUtils) vaultArgs _ Hmain)
    as (_ & Hpaths & Hnames & _).
  split; [exact Hpaths | exact Hnames].
Defined.

Lemma main_vaults_pass_the_constructor_sample :
  let vaultArgs := ["/x/notes"; "/y/notes"] in
  let host := Sample.node (Sample.diskOf vaultArgs) in
  Lifecycle.constructorVaults (Host := host) (Protocol := Fixture.sdk)
    [{| Cli.name := "notes"; Cli.path := "/x/notes" |};
     {| Cli.name := "notes-1"; Cli.path := "/y/notes" |}]
  = Return [("notes", "/x/notes"); ("notes-1", "/y/notes")].
Proof.
  intros vaultArgs host.
  apply (main_vaults_pass_the_constructor
           (Host := host) (Utils := Sample.pathUtils) (Protocol := Fixture.sdk) vaultArgs).
  - repeat constructor.
  - vm_compute. reflexivity.
Defined.

(** ** The options of the command line *)

Section ArgvFacts.
Context `{Eng : Engine}.
Import Argv.

(** What a turn of the loop that goes on has done. *)
Lemma optionLoop_Parsed options vaultArgs arg rest options' vaultArgs' :
  optionLoop options vaultArgs (arg :: rest) = Parsed options' vaultArgs' →
  (arg = "--" ∧ options' = options ∧ vaultArgs' = vaultArgs ++ rest) ∨
  (arg ≠ "--" ∧ String.prefix "--" arg = false ∧ arg ≠ "-h" ∧
   optionLoop options (vaultArgs ++ [arg]) rest = Parsed options' vaultArgs') ∨
  (arg ≠ "--" ∧ String.prefix "--" arg = true ∧
   ∃ assign value options1,
     takesValue (split2 arg).1 = Some assign ∧ (split2 arg).2 = Some value ∧
     assign value options = inr options1 ∧
     optionLoop options1 vaultArgs rest = Parsed options' vaultArgs') ∨
  (arg ≠ "--" ∧ String.prefix "--" arg = true ∧
   ∃ assign next rest' options1,
     takesValue (split2 arg).1 = Some assign ∧ (split2 arg).2 = None ∧
     rest = next :: rest' ∧ noValue next = false ∧
     assign next options = inr options1 ∧
     optionLoop options1 vaultArgs rest' = Parsed options' vaultArgs') ∨
  (arg ≠ "--" ∧ String.prefix "--" arg = true ∧
   (split2 arg).1 = "--enable-dns-rebinding-protection" ∧
   optionLoop (enable_protection options) vaultArgs rest = Parsed options' vaultArgs').
Proof.
  cbn [optionLoop]. case_decide as Hend.
  { intros [= <- <-]. by left. }
  destruct (String.prefix "--" arg) eqn:Hprefix; cbn [negb orb].
  - destruct (bool_decide (arg = "--help")) eqn:Hhelp; cbn [orb]; [done |].
    destruct (bool_decide (arg = "-h")) eqn:Hh; cbn [orb]; [done |].
    destruct (split2 arg) as [flag inlineValue]. cbn [fst snd].
    destruct (takesValue flag) as [assign|].
    + destruct inlineValue as [value|].
      * destruct (assign value options) as [e|options1] eqn:Hassign; [done |].
        intros Hloop. right; right; left. split_and!; [done.. |].
        by exists assign, value, options1.
      * destruct rest as [|next rest']; [done |].
        destruct (noValue next) eqn:Hnext; [done |].
        destruct (assign next options) as [e|options1] eqn:Hassign; [done |].
        intros Hloop. do 3 right; left. split_and!; [done.. |].
        by exists assign, next, rest', options1.
    + destruct (decide (flag = "--enable-dns-rebinding-protection")) as [Hflag|Hflag]; [| done].
      intros Hloop. do 4 right. by split_and!.
  - destruct (bool_decide (arg = "--help")) eqn:Hhelp; cbn [orb]; [done |].
    destruct (bool_decide (arg = "-h")) eqn:Hh; cbn [orb]; [done |].
    intros Hloop. right; left. split_and!; [done.. | | done].
    intros ->. done.
Qed.

Lemma slash_prefix (value : string) :
  String.prefix "/" (if String.prefix "/" value then value else "/" +:+ value) = true.
Proof.
  destruct (String.prefix "/" value) eqn:Hvalue; [done |].
  change ("/" +:+ value) with (String "/" value). cbn. by destruct value.
Qed.

(** What an assignment that succeeds keeps. *)
Lemma takesValue_keeps flag assign given (options options1 : CliOptions) :
  takesValue flag = Some assign → assign given options = inr options1 →
  ((1 ≤ port options ≤ 65535)%Z → (1 ≤ port options1 ≤ 65535)%Z) ∧
  (String.prefix "/" (httpPath options) = true →
   String.prefix "/" (httpPath options1) = true) ∧
  enableDnsRebindingProtection options1 = enableDnsRebindingProtection options.
Proof.
  unfold takesValue. repeat case_decide; intros [= <-]; try done.
  - repeat case_decide; intros [= <-]; done.
  - intros [= <-]. done.
  - destruct (integerOf given) as [value|]; [| done].
    case_decide; [done |]. intros [= <-]. cbn. split_and!; [lia | done..].
  - intros [= <-]. cbn. split_and!; [done | | done]. intros _. apply slash_prefix.
  - intros [= <-]. done.
  - intros [= <-]. done.
Qed.

(** A property of the options that every turn keeps holds at the end. *)
Lemma optionLoop_invariant (I : CliOptions → Prop) :
  (∀ flag assign given options options1,
     takesValue flag = Some assign → assign given options = inr options1 →
     I options → I options1) →
  (∀ options, I options → I (enable_protection options)) →
  ∀ (n : nat) rawArgs options vaultArgs options' vaultArgs',
    length rawArgs ≤ n →
    optionLoop options vaultArgs rawArgs = Parsed options' vaultArgs' →
    I options → I options'.
Proof.
  intros Hassigns Henable.
  induction n as [|n IH]; intros rawArgs options vaultArgs options' vaultArgs' Hlen Hloop Hinv.
  { destruct rawArgs; [| cbn in Hlen; lia]. by injection Hloop as <- <-. }
  destruct rawArgs as [|arg rest]; [by injection Hloop as <- <- |].
  cbn [length] in Hlen.
  destruct (optionLoop_Parsed _ _ _ _ _ _ Hloop)
    as [(_ & -> & _) | [(_ & _ & _ & Hrest) | [(_ & _ & assign & value & options1 & Htakes & _ & Hassign & Hrest)
       | [(_ & _ & assign & next & rest' & options1 & Htakes & _ & -> & _ & Hassign & Hrest)
       | (_ & _ & _ & Hrest)]]]].
  - done.
  - eapply IH; [| exact Hrest | done]. lia.
  - eapply IH; [| exact Hrest |]; [lia |]. by eapply Hassigns.
  - eapply IH; [| exact Hrest |]; [cbn [length] in Hlen; lia |]. by eapply Hassigns.
  - eapply IH; [| exact Hrest |]; [lia |]. by apply Henable.
Qed.

(** X16. The options that [main] goes on with are in range whatever the
    arguments were: the port is an integer from 1 to 65535, and the path of
    the HTTP endpoint begins with a slash. *)
Theorem parseArgs_port_and_path_are_in_range rawArgs options vaultArgs :
  parseArgs rawArgs = Parsed options vaultArgs →
  (1 ≤ port options ≤ 65535)%Z ∧ String.prefix "/" (httpPath options) = true.
Proof.
  intros Hparse.
  eapply (optionLoop_invariant
            (λ o, (1 ≤ port o ≤ 65535)%Z ∧ String.prefix "/" (httpPath o) = true));
    [| | | exact Hparse |]; [| | done |].
  - intros flag assign given o o1 Htakes Hassign [Hport Hpath].
    destruct (takesValue_keeps _ _ _ _ _ Htakes Hassign) as (? & ? & _). auto.
  - done.
  - split; [cbn; lia | reflexivity].
Qed.

Lemma optionLoop_vaultArgs (n : nat) :
  ∀ rawArgs options vaultArgs options' vaultArgs',
    length rawArgs ≤ n →
    optionLoop options vaultArgs rawArgs = Parsed options' vaultArgs' →
    ∃ added,
      vaultArgs' = vaultArgs ++ added ∧ sublist added rawArgs ∧
      ("--" ∉ rawArgs → Forall (λ arg, String.prefix "--" arg = false ∧ arg ≠ "-h") added).
Proof.
  induction n as [|n IH]; intros rawArgs options vaultArgs options' vaultArgs' Hlen Hloop.
  { destruct rawArgs; [| cbn in Hlen; lia]. injection Hloop as <- <-.
    exists []. by rewrite app_nil_r. }
  destruct rawArgs as [|arg rest].
  { injection Hloop as <- <-. exists []. by rewrite app_nil_r. }
  cbn [length] in Hlen.
  destruct (optionLoop_Parsed _ _ _ _ _ _ Hloop)
    as [(-> & _ & ->) | [(_ & Hprefix & Hh & Hrest) | [(_ & _ & assign & value & options1 & _ & _ & _ & Hrest)
       | [(_ & _ & assign & next & rest' & options1 & _ & _ & -> & _ & _ & Hrest)
       | (_ & _ & _ & Hrest)]]]].
  - exists rest. split_and!; [done | by apply sublist_cons |]. set_solver.
  - destruct (IH rest _ _ _ _ ltac:(lia) Hrest) as (added & -> & Hsub & Hplain).
    exists (arg :: added). split_and!.
    + by rewrite <- app_assoc.
    + by apply sublist_skip.
    + intros Hnot. constructor; [done |]. apply Hplain. set_solver.
  - destruct (IH rest _ _ _ _ ltac:(lia) Hrest) as (added & -> & Hsub & Hplain).
    exists added. split_and!; [done | by apply sublist_cons |].
    intros Hnot. apply Hplain. set_solver.
  - cbn [length] in Hlen.
    destruct (IH rest' _ _ _ _ ltac:(lia) Hrest) as (added & -> & Hsub & Hplain).
    exists added. split_and!; [done | by do 2 apply sublist_cons |].
    intros Hnot. apply Hplain. set_solver.
  - destruct (IH rest _ _ _ _ ltac:(lia) Hrest) as (added & -> & Hsub & Hplain).
    exists added. split_and!; [done | by apply sublist_cons |].
    intros Hnot. apply Hplain. set_solver.
Qed.

(** X17. The vault paths that the loop collects are arguments of the
    command line, in their order. Without the terminator [--] among the
    arguments, none of them begins with two hyphens and none is [-h]. *)
Theorem parseArgs_vault_paths_are_arguments rawArgs options vaultArgs :
  parseArgs rawArgs = Parsed options vaultArgs →
  sublist vaultArgs rawArgs ∧
  ("--" ∉ rawArgs →
   Forall (λ arg, String.prefix "--" arg = false ∧ arg ≠ "-h") vaultArgs).
Proof.
  intros Hparse.
  destruct (optionLoop_vaultArgs (length rawArgs) rawArgs _ _ _ _ ltac:(done) Hparse)
    as (added & -> & Hsub & Hplain).
  done.
Qed.

Lemma optionLoop_app (n : nat) :
  ∀ before options vaultArgs options' vaultArgs' more,
    length before ≤ n →
    optionLoop options vaultArgs before = Parsed options' vaultArgs' →
    "--" ∉ before →
    optionLoop options vaultArgs (before ++ more) = optionLoop options' vaultArgs' more.
Proof.
  induction n as [|n IH];
    intros before options vaultArgs options' vaultArgs' more Hlen Hloop Hnot.
  { destruct before; [| cbn in Hlen; lia]. by injection Hloop as <- <-. }
  destruct before as [|arg rest]; [by injection Hloop as <- <- |].
  cbn [length] in Hlen.
  assert (arg ≠ "--") as Harg by set_solver.
  assert ("--" ∉ rest) as Hrest' by set_solver.
  destruct (optionLoop_Parsed _ _ _ _ _ _ Hloop)
    as [(-> & _ & _) | [(_ & Hprefix & Hh & Hrest) | [(_ & Hprefix & assign & value & options1 & Htakes & Hinline & Hassign & Hrest)
       | [(_ & Hprefix & assign & next & rest' & options1 & Htakes & Hinline & -> & Hnext & Hassign & Hrest)
       | (_ & Hprefix & Hflag & Hrest)]]]]; [done | ..].
  - rewrite <- (IH rest _ _ _ _ more ltac:(lia) Hrest Hrest').
    cbn [app optionLoop]. rewrite decide_False by done. rewrite Hprefix. cbn [negb orb].
    rewrite bool_decide_eq_false_2 by (by intros ->).
    rewrite bool_decide_eq_false_2 by done. done.
  - rewrite <- (IH rest _ _ _ _ more ltac:(lia) Hrest Hrest').
    cbn [app optionLoop]. rewrite decide_False by done. rewrite Hprefix. cbn [negb orb].
    destruct (bool_decide (arg = "--help")) eqn:Hhelp.
    { cbn [optionLoop] in Hloop. rewrite decide_False, Hprefix, Hhelp in Hloop by done. done. }
    destruct (bool_decide (arg = "-h")) eqn:Hh.
    { apply bool_decide_eq_true in Hh. by subst arg. }
    cbn [orb]. destruct (split2 arg) as [flag inlineValue]. cbn [fst snd] in *.
    by rewrite Htakes, Hinline, Hassign.
  - cbn [length] in Hlen.
    rewrite <- (IH rest' _ _ _ _ more ltac:(lia) Hrest ltac:(set_solver)).
    cbn [app optionLoop]. rewrite decide_False by done. rewrite Hprefix. cbn [negb orb].
    destruct (bool_decide (arg = "--help")) eqn:Hhelp.
    { cbn [optionLoop] in Hloop. rewrite decide_False, Hprefix, Hhelp in Hloop by done. done. }
    destruct (bool_decide (arg = "-h")) eqn:Hh.
    { apply bool_decide_eq_true in Hh. by subst arg. }
    cbn [orb]. destruct (split2 arg) as [flag inlineValue]. cbn [fst snd] in *.
    by rewrite Htakes, Hinline, Hnext, Hassign.
  - rewrite <- (IH rest _ _ _ _ more ltac:(lia) Hrest Hrest').
    cbn [app optionLoop]. rewrite decide_False by done. rewrite Hprefix. cbn [negb orb].
    destruct (bool_decide (arg = "--help")) eqn:Hhelp.
    { cbn [optionLoop] in Hloop. rewrite decide_False, Hprefix, Hhelp in Hloop by done. done. }
    destruct (bool_decide (arg = "-h")) eqn:Hh.
    { apply bool_decide_eq_true in Hh. by subst arg. }
    cbn [orb]. destruct (split2 arg) as [flag inlineValue]. cbn [fst snd] in *.
    destruct (takesValue flag) as [assign|] eqn:Htakes.
    { cbn [optionLoop] in Hloop. rewrite decide_False, Hprefix, Hhelp, Hh in Hloop by done.
      cbn [negb orb] in Hloop. subst flag. unfold takesValue in Htakes.
      repeat case_decide; done. }
    by rewrite decide_True.
Qed.

(** X18. Arguments that the loop accepts up to the terminator [--] give
    the same options with anything behind it, and what stands behind the
    terminator is appended to the vault paths as it is, also [-h], [--help]
    and arguments that look like options. *)
Theorem parseArgs_terminator_ends_the_options before options vaultArgs after :
  parseArgs before = Parsed options vaultArgs →
  "--" ∉ before →
  parseArgs (before ++ "--" :: after) = Parsed options (vaultArgs ++ after).
Proof.
  intros Hparse Hnot. unfold parseArgs.
  rewrite (optionLoop_app (length before) before _ _ _ _ ("--" :: after) ltac:(done) Hparse Hnot).
  cbn [optionLoop]. by rewrite decide_True.
Qed.

(** The flags that read a value. *)
Lemma takesValue_Some flag assign :
  takesValue flag = Some assign →
  flag ∈ ["--transport"; "--host"; "--port"; "--http-path"; "--allowed-origin"; "--allowed-host"].
Proof. unfold takesValue. repeat case_decide; [set_solver.. | done]. Qed.

(** X19. A flag that reads a value takes an inline value as the text
    between the first [=] of the argument and a second one: what follows a
    second [=] is dropped, and the value may be empty or begin with two
    hyphens. Given as the next argument, the value is taken whole, and
    must be neither empty nor begin with two hyphens. *)
Theorem optionLoop_inline_value_ends_at_the_second_equals flag assign given rest options vaultArgs :
  takesValue flag = Some assign →
  optionLoop options vaultArgs ((flag +:+ "=" +:+ given) :: rest)
  = match assign (beforeEquals given) options with
    | inl e => Failed e
    | inr options' => optionLoop options' vaultArgs rest
    end ∧
  optionLoop options vaultArgs (flag :: given :: rest)
  = if noValue given then Failed (MissingValue flag)
    else match assign given options with
         | inl e => Failed e
         | inr options' => optionLoop options' vaultArgs rest
         end.
Proof.
  intros Htakes. pose proof (takesValue_Some _ _ Htakes) as Hflag.
  repeat (apply elem_of_cons in Hflag as [->|Hflag]); [.. | by apply elem_of_nil in Hflag];
    (split;
     [ change (optionLoop options vaultArgs ((?f +:+ "=" +:+ given) :: rest))
         with (match takesValue f with
               | Some assign' =>
                   match assign' (beforeEquals given) options with
                   | inl e => Failed e
                   | inr options' => optionLoop options' vaultArgs rest
                   end
               | None => Failed (UnknownOption f)
               end);
       by rewrite Htakes
     | change (optionLoop options vaultArgs (?f :: given :: rest))
         with (match takesValue f with
               | Some assign' =>
                   if noValue given then Failed (MissingValue f)
                   else match assign' given options with
                        | inl e => Failed e
                        | inr options' => optionLoop options' vaultArgs rest
                        end
               | None => Failed (UnknownOption f)
               end);
       by rewrite Htakes ]).
Qed.

(** X20. The flag of the DNS rebinding protection enables it whatever
    inline value it is given: [--enable-dns-rebinding-protection=false]
    does what the bare flag does. No argument that follows disables the
    protection again. *)
Theorem optionLoop_protection_flag_ignores_its_value given rest options vaultArgs :
  optionLoop options vaultArgs (("--enable-dns-rebinding-protection" +:+ "=" +:+ given) :: rest)
  = optionLoop options vaultArgs ("--enable-dns-rebinding-protection" :: rest) ∧
  ∀ options' vaultArgs',
    optionLoop options vaultArgs ("--enable-dns-rebinding-protection" :: rest)
    = Parsed options' vaultArgs' →
    enableDnsRebindingProtection options' = true.
Proof.
  split; [reflexivity |]. intros options' vaultArgs'.
  change (optionLoop options vaultArgs ("--enable-dns-rebinding-protection" :: rest))
    with (optionLoop (enable_protection options) vaultArgs rest).
  intros Hloop.
  eapply (optionLoop_invariant (λ o, enableDnsRebindingProtection o = true));
    [| | | exact Hloop |]; [| done | done | done].
  intros flag assign value o o1 Htakes Hassign Hon.
  destruct (takesValue_keeps _ _ _ _ _ Htakes Hassign) as (_ & _ & ->). done.
Qed.

End ArgvFacts.

(** The loop on a command line, with the engine of the fixture. *)
Lemma parseArgs_in_range_sample :
  let rawArgs := ["--transport"; "HTTP"; "--port=9000"; "--http-path"; " api "; "/vaults/v1"] in
  ∃ options,
    Argv.parseArgs (Eng := Fixture.engine) rawArgs = Argv.Parsed options ["/vaults/v1"] ∧
    Argv.transport options = Argv.http ∧
    Argv.httpPath options = "/api" ∧
    (1 ≤ Argv.port options ≤ 65535)%Z.
Proof.
  intros rawArgs.
  exists {| Argv.transport := Argv.http; Argv.host := "0.0.0.0"; Argv.port := 9000;
            Argv.httpPath := "/api"; Argv.allowedOrigins := []; Argv.allowedHosts := [];
            Argv.enableDnsRebindingProtection := false |}.
  assert (Argv.parseArgs (Eng := Fixture.engine) rawArgs
          = Argv.Parsed
              {| Argv.transport := Argv.http; Argv.host := "0.0.0.0"; Argv.port := 9000;
                 Argv.httpPath := "/api"; Argv.allowedOrigins := []; Argv.allowedHosts := [];
                 Argv.enableDnsRebindingProtection := false |} ["/vaults/v1"]) as Hparse
    by (vm_compute; reflexivity).
  split; [exact Hparse |]. split; [reflexivity |]. split; [reflexivity |].
  exact (proj1 (parseArgs_port_and_path_are_in_range (Eng := Fixture.engine) rawArgs _ _ Hparse)).
Defined.

Lemma parseArgs_vault_paths_sample :
  let rawArgs := ["/vaults/v1"; "--host"; "localhost"; "/vaults/v2"] in
  Argv.parseArgs (Eng := Fixture.engine) rawArgs
  = Argv.Parsed (Argv.set_host "localhost" Argv.defaults) ["/vaults/v1"; "/vaults/v2"] ∧
  sublist ["/vaults/v1"; "/vaults/v2"] rawArgs ∧
  Forall (λ arg, String.prefix "--" arg = false ∧ arg ≠ "-h") ["/vaults/v1"; "/vaults/v2"].
Proof.
  intros rawArgs.
  assert (Argv.parseArgs (Eng := Fixture.engine) rawArgs
          = Argv.Parsed (Argv.set_host "localhost" Argv.defaults) ["/vaults/v1"; "/vaults/v2"])
    as Hparse by reflexivity.
  split; [exact Hparse |].
  destruct (parseArgs_vault_paths_are_arguments (Eng := Fixture.engine) rawArgs _ _ Hparse)
    as [Hsub Hplain].
  split; [exact Hsub |]. apply Hplain.
  intros Hin. repeat (apply elem_of_cons in Hin as [Hin|Hin]; [discriminate Hin |]).
  by apply elem_of_nil in Hin.
Defined.

Lemma parseArgs_terminator_sample :
  Argv.parseArgs (Eng := Fixture.engine)
    (["--host=localhost"; "/vaults/v1"] ++ "--" :: ["-h"; "--port"; "--"])
  = Argv.Parsed (Argv.set_host "localhost" Argv.defaults)
      (["/vaults/v1"] ++ ["-h"; "--port"; "--"]).
Proof.
  apply (parseArgs_terminator_ends_the_options (Eng := Fixture.engine)
           ["--host=localhost"; "/vaults/v1"]); [reflexivity |].
  intros Hin. repeat (apply elem_of_cons in Hin as [Hin|Hin]; [discriminate Hin |]).
  by apply elem_of_nil in Hin.
Defined.

(** An allowed origin with a query: the inline form keeps the text up to
    the second [=], the separate form all of it. *)
Lemma optionLoop_inline_value_sample :
  Argv.allowedOrigins <$>
    [Argv.push_allowedOrigin "https://a.example/?k" Argv.defaults;
     Argv.push_allowedOrigin "https://a.example/?k=1" Argv.defaults]
  = [["https://a.example/?k"]; ["https://a.example/?k=1"]] ∧
  Argv.parseArgs (Eng := Fixture.engine) ["--allowed-origin=https://a.example/?k=1"; "/v"]
  = Argv.Parsed (Argv.push_allowedOrigin "https://a.example/?k" Argv.defaults) ["/v"] ∧
  Argv.parseArgs (Eng := Fixture.engine) ["--allowed-origin"; "https://a.example/?k=1"; "/v"]
  = Argv.Parsed (Argv.push_allowedOrigin "https://a.example/?k=1" Argv.defaults) ["/v"].
Proof.
  split; [reflexivity |].
  destruct (optionLoop_inline_value_ends_at_the_second_equals (Eng := Fixture.engine)
              "--allowed-origin" (λ given o, inr (Argv.push_allowedOrigin given o))
              "https://a.example/?k=1" ["/v"] Argv.defaults [] eq_refl) as [Hinline Hnext].
  split; [exact Hinline | exact Hnext].
Defined.

(** ** The callback of [main] on one vault path *)

Section CallbackFacts.
Context `{Host : Cli.Node} `{Utils : Cli.PathUtils}.
Import Cli.

(** X21. Whatever the checks answer, the callback of a path whose
    absolute path is absolute calls the suspicious-location check and then
    the local-filesystem check, the second also when the first complains.
    After these two it calls [stat] and [access] on the vault directory,
    [stat] on its [.obsidian] and [access] on the [app.json] in it, in this
    order, and makes no call after the first that does not succeed: a
    complaint of either path check, a failure of [stat] or [access], or a
    [stat] that finds no directory. Otherwise the callback makes no call. *)
Theorem validateVaultPath_calls_in_one_order vaultPath :
  let absolutePath := absolutePathOf vaultPath in
  let obsidianConfigPath := path_join absolutePath ".obsidian" in
  (validateVaultPath vaultPath).1 =
    if path_isAbsolute absolutePath then
      upToFirstFailure
        [(CheckSuspiciousPath absolutePath, true);
         (CheckLocalPath absolutePath,
          answersNone (checkLocalPath absolutePath) &&
          answersNone (checkSuspiciousPath absolutePath));
         (Stat absolutePath, foundDirectory (fs_stat absolutePath));
         (Access absolutePath R_OK_W_OK, answersNone (fs_access absolutePath R_OK_W_OK));
         (Stat obsidianConfigPath, foundDirectory (fs_stat obsidianConfigPath));
         (Access (path_join obsidianConfigPath "app.json") R_OK,
          answersNone (fs_access (path_join obsidianConfigPath "app.json") R_OK))]
    else [].
Proof.
  intros absolutePath obsidianConfigPath.
  unfold validateVaultPath. cbv zeta. fold absolutePath. fold obsidianConfigPath.
  destruct (path_isAbsolute _); cbn [negb]; [| done].
  unfold vbind, called, reject, vret.
  destruct (checkLocalPath _); [by destruct (checkSuspiciousPath _) |].
  destruct (checkSuspiciousPath _); [done |].
  destruct (fs_stat absolutePath) as [[]|]; [| done..].
  destruct (fs_access absolutePath _); [done |].
  destruct (fs_stat obsidianConfigPath) as [[]|]; [| done..].
  by destruct (fs_access (path_join obsidianConfigPath _) _).
Qed.

(** X22. The only rejections of the callback with the code [InternalError]
    come from [.obsidian] or its [app.json]: a failure of [stat] on the
    former or of [access] on the latter whose code is not [ENOENT], hence
    also a missing permission, which on the vault directory itself is an
    [InvalidRequest]. *)
Theorem validateVaultPath_InternalError vaultPath rejection :
  (validateVaultPath vaultPath).2 = inl rejection →
  rejectionCode rejection = InternalError →
  let obsidianConfigPath := path_join (absolutePathOf vaultPath) ".obsidian" in
  fs_stat (absolutePathOf vaultPath) = StatOk true ∧
  fs_access (absolutePathOf vaultPath) R_OK_W_OK = None ∧
  ∃ e, code e ≠ "ENOENT" ∧ rejection = ConfigError (text e) ∧
       (fs_stat obsidianConfigPath = StatFails e ∨
        fs_stat obsidianConfigPath = StatOk true ∧
        fs_access (path_join obsidianConfigPath "app.json") R_OK = Some e).
Proof.
  unfold validateVaultPath. cbv zeta.
  destruct (path_isAbsolute _); cbn [negb]; [| by intros [= <-]].
  unfold vbind, called, reject, vret.
  destruct (checkLocalPath _); [by intros [= <-] |].
  destruct (checkSuspiciousPath _); [by intros [= <-] |].
  destruct (fs_stat (absolutePathOf vaultPath)) as [[]|e0]; cbn.
  2: by intros [= <-].
  2: { intros [= <-]. unfold accessRejection. by repeat case_decide. }
  destruct (fs_access (absolutePathOf vaultPath) _) as [e0|]; cbn.
  { intros [= <-]. unfold accessRejection. by repeat case_decide. }
  destruct (fs_stat (path_join _ _)) as [[]|e] eqn:Hconfig; cbn.
  2: by intros [= <-].
  - destruct (fs_access (path_join _ _) _) as [e|] eqn:Happ; cbn; [| done].
    intros [= <-]. unfold configRejection. case_decide as Hcode; [done |].
    intros _. split_and!; [done.. |]. exists e. split_and!; [done.. |]. by right.
  - intros [= <-]. unfold configRejection. case_decide as Hcode; [done |].
    intros _. split_and!; [done.. |]. exists e. split_and!; [done.. |]. by left.
Qed.

(** X23. A vault path passes its callback exactly when its absolute path
    is absolute, neither path check has a complaint, the path is a
    directory that can be read and written, and its [.obsidian] is a
    directory whose [app.json] can be read. *)
Theorem passes_exactly_the_initialized_vaults vaultPath :
  let absolutePath := absolutePathOf vaultPath in
  let obsidianConfigPath := path_join absolutePath ".obsidian" in
  passes vaultPath = true ↔
    path_isAbsolute absolutePath = true ∧
    checkLocalPath absolutePath = None ∧
    checkSuspiciousPath absolutePath = None ∧
    fs_stat absolutePath = StatOk true ∧
    fs_access absolutePath R_OK_W_OK = None ∧
    fs_stat obsidianConfigPath = StatOk true ∧
    fs_access (path_join obsidianConfigPath "app.json") R_OK = None.
Proof.
  intros absolutePath obsidianConfigPath.
  unfold passes, validateVaultPath. cbv zeta. fold absolutePath. fold obsidianConfigPath.
  destruct (path_isAbsolute _); cbn [negb]; [| naive_solver].
  unfold vbind, called, reject, vret.
  destruct (checkLocalPath _); [naive_solver |].
  destruct (checkSuspiciousPath _); [naive_solver |].
  destruct (fs_stat absolutePath) as [[]|]; [| naive_solver..].
  destruct (fs_access absolutePath _); [naive_solver |].
  destruct (fs_stat obsidianConfigPath) as [[]|]; [| naive_solver..].
  destruct (fs_access (path_join obsidianConfigPath _) _); naive_solver.
Qed.

Lemma whileUsed_free (fuel : nat) (usedNames : gset string) vaultName uniqueName counter :
  uniqueName ∉ usedNames →
  whileUsed fuel usedNames vaultName uniqueName counter = Some uniqueName.
Proof. intros Hfree. destruct fuel; cbn; by rewrite decide_False. Qed.

Lemma foldl_forEachVault_distinct (vaults : list VaultConfig) :
  NoDup (name <$> vaults) →
  foldl forEachVault (Some ([], ∅)) vaults = Some (vaults, list_to_set (name <$> vaults)).
Proof.
  induction vaults as [|vault vaults IH] using rev_ind; [done |].
  rewrite fmap_app, foldl_app. cbn [fmap list_fmap foldl].
  intros [Hnodup [Hnot _]]%NoDup_app. rewrite IH by done. cbn.
  rewrite whileUsed_free by set_solver. cbn. destruct vault as [n p]. cbn.
  do 2 f_equal. rewrite list_to_set_app_L. cbn. set_solver.
Qed.

(** X24. Vaults whose names differ keep their names: the naming loop
    returns the vaults as they are, and appends no number. *)
Theorem uniqueVaultsOf_keeps_distinct_names (vaults : list VaultConfig) :
  NoDup (name <$> vaults) → uniqueVaultsOf vaults = Some vaults.
Proof.
  intros Hnodup. unfold uniqueVaultsOf. by rewrite foldl_forEachVault_distinct.
Qed.

End CallbackFacts.

(** A vault whose [app.json] may not be read, and the same vault without
    permission on the directory itself. *)
Lemma validateVaultPath_InternalError_sample :
  let disk := Sample.diskOf ["/vaults/v1"] in
  let validate denied :=
    (Cli.validateVaultPath (Host := Fixture.guarded disk denied) (Utils := Sample.pathUtils)
       "/vaults/v1").2 in
  validate ["/vaults/v1/.obsidian/app.json"] = inl (Cli.ConfigError "permission denied") ∧
  validate ["/vaults/v1"] = inl Cli.NoPermission ∧
  Cli.fs_stat (Node := Fixture.guarded disk ["/vaults/v1/.obsidian/app.json"]) "/vaults/v1"
  = Cli.StatOk true.
Proof.
  intros disk validate.
  assert (validate ["/vaults/v1/.obsidian/app.json"] = inl (Cli.ConfigError "permission denied"))
    as Hdenied by (vm_compute; reflexivity).
  split; [exact Hdenied |]. split; [vm_compute; reflexivity |].
  exact (proj1 (validateVaultPath_InternalError
                  (Host := Fixture.guarded disk ["/vaults/v1/.obsidian/app.json"])
                  (Utils := Sample.pathUtils) "/vaults/v1" _ Hdenied eq_refl)).
Defined.

Lemma uniqueVaultsOf_keeps_distinct_names_sample :
  let vaults := [{| Cli.name := "work"; Cli.path := "/x/work" |};
                 {| Cli.name := "personal"; Cli.path := "/x/personal" |}] in
  NoDup (Cli.name <$> vaults) ∧ Cli.uniqueVaultsOf vaults = Some vaults.
Proof.
  intros vaults.
  assert (NoDup (Cli.name <$> vaults)) as Hnd.
  { apply (bool_decide_unpack _). vm_compute. exact I. }
  split; [exact Hnd |]. exact (uniqueVaultsOf_keeps_distinct_names vaults Hnd).
Defined.

(** ** Trailing separators *)

Section SeparatorFacts.
Import Cli.

Lemma chars_rev_app (s t : string) :
  String.list_ascii_of_string (String.rev_app s t)
  = reverse (String.list_ascii_of_string s) ++ String.list_ascii_of_string t.
Proof.
  revert t. induction s as [|a s IH]; intros t; [done |].
  cbn [String.rev_app]. rewrite IH. cbn [String.list_ascii_of_string].
  rewrite reverse_cons, <- app_assoc. done.
Qed.

Lemma chars_rev (s : string) :
  String.list_ascii_of_string (String.rev s) = reverse (String.list_ascii_of_string s).
Proof. unfold String.rev. by rewrite chars_rev_app, app_nil_r. Qed.

Lemma dropSeparators_chars (reversed : string) :
  ∃ separators,
    String.list_ascii_of_string reversed
    = separators ++ String.list_ascii_of_string (dropSeparators reversed) ∧
    Forall (λ c, c = "/"%char ∨ c = "\"%char) separators ∧
    ∀ c, head (String.list_ascii_of_string (dropSeparators reversed)) = Some c →
         ¬ (c = "/"%char ∨ c = "\"%char).
Proof.
  induction reversed as [|a rest IH].
  - exists []. by split_and!.
  - cbn [dropSeparators]. case_decide as Hsep.
    + destruct IH as (separators & Hchars & Hall & Hhead).
      exists (a :: separators). split_and!; [| by constructor | done].
      cbn. by rewrite Hchars.
    + exists []. split_and!; [done | done |]. by intros c [= <-].
Qed.

(** X25. [stripTrailingSeparators] removes the run of slashes and
    backslashes at the end of the path and nothing else: the path is what
    is left followed by separators only, and what is left does not end in
    a separator. A path made of separators only, such as the root, is
    left empty. *)
Theorem stripTrailingSeparators_removes_the_trailing_run (s : string) :
  let separator c := c = "/"%char ∨ c = "\"%char in
  let kept := String.list_ascii_of_string (stripTrailingSeparators s) in
  (∃ separators,
     String.list_ascii_of_string s = kept ++ separators ∧ Forall separator separators) ∧
  (∀ c, last kept = Some c → ¬ separator c) ∧
  (Forall separator (String.list_ascii_of_string s) → stripTrailingSeparators s = "").
Proof.
  intros separator kept.
  destruct (dropSeparators_chars (String.rev s)) as (separators & Hchars & Hall & Hhead).
  assert (kept = reverse (String.list_ascii_of_string (dropSeparators (String.rev s))))
    as Hkept by apply chars_rev.
  assert (String.list_ascii_of_string s = kept ++ reverse separators) as Hsplit.
  { rewrite Hkept, <- reverse_app, <- Hchars, chars_rev. by rewrite reverse_involutive. }
  assert (∀ c, last kept = Some c → ¬ separator c) as Hlast.
  { intros c. rewrite Hkept, last_reverse. apply Hhead. }
  split_and!; [| done |].
  - exists (reverse separators). split; [done |]. by apply Forall_reverse.
  - intros Hseps. rewrite Hsplit in Hseps. apply Forall_app in Hseps as [Hkeptseps _].
    assert (kept = []) as Hnil.
    { destruct (last kept) as [c|] eqn:Hc.
      - destruct (Hlast c eq_refl). rewrite Forall_forall in Hkeptseps. apply Hkeptseps.
        by apply last_Some_elem_of.
      - by apply last_None. }
    rewrite <- (String.string_of_list_ascii_of_string (stripTrailingSeparators s)).
    fold kept. by rewrite Hnil.
Qed.

End SeparatorFacts.
